(** * Kernixcord runtime patches: a shallow embedding and its properties

    The development follows the three patch modules of the repository:

    - [src/menu-fix.ts]                                (module [MenuFix])
    - [src/performance-patches.ts]                     (module [PerformancePatches])
    - [src/kernixcordplugins/VoiceCrashPreventer]      (module [VoiceCrashPreventer])

    The host registry ([waitFor]), the browser media entry points and the
    host settings object are external collaborators: they appear as
    oracles, section variables and a small object heap. *)

From Stdlib Require Import ZArith String List Lia Bool.
From stdpp Require Import base gmap strings list fin_maps.
From Equations Require Import Equations.
Import ListNotations.

Local Open Scope string_scope.
Local Open Scope list_scope.
Local Open Scope Z_scope.

(** ** JavaScript values, as far as the patches look at them *)

Module JS.

(** Object references are addresses into a heap of property maps. *)
Definition loc := positive.

(** Numbers are the integral ones: the sources only compare a delay
    with [0] and schedule whole milliseconds. *)
Inductive jsval : Type :=
| JUndefined
| JNull
| JBool (b : bool)
| JNum (n : Z)
| JStr (s : string)
| JRef (l : loc).

(** [ToBoolean]: what [if (v)] and [v && ...] test. *)
Definition truthy (v : jsval) : bool :=
  match v with
  | JUndefined | JNull => false
  | JBool b => b
  | JNum n => negb (Z.eqb n 0)
  | JStr s => negb (String.eqb s "")
  | JRef _ => true
  end.

(** A plain object: its own properties. *)
Abbreviation obj := (gmap string jsval).

(** [o.k]: an absent property reads as [undefined]. *)
Definition get_prop (o : obj) (k : string) : jsval :=
  default JUndefined (o !! k).

End JS.

Import JS.

(** ** [src/menu-fix.ts]: the component-availability waiter *)

Module MenuFix.

Definition MAX_RETRIES : nat := 5.

(** The two timer constants of [attemptLoad], in milliseconds. *)
Definition QUERY_TIMEOUT : Z := 2000.
Definition RETRY_DELAY : Z := 1000.

(** A query is a predicate on the module name or a source-code signature. *)
Inductive selector : Type :=
| ByName (name : string)
| ByCode (code : list string).

(** The double-quote character, for the signature [path:["empty"]]. *)
Definition dquote : string :=
  String (Ascii.Ascii false true false false false true false false) EmptyString.

Definition menuSelectors : list selector :=
  [ ByName "MenuCheckboxItem";
    ByName "MenuRadioItem";
    ByName "MenuItem";
    ByName "MenuGroup";
    ByCode [("path:[" ++ dquote ++ "empty" ++ dquote ++ "]")%string];
    ByCode ["sliderContainer"; "slider"; "handleSize:16"; "=100"];
    ByCode [".SEARCH)"; ".focus()"; "query:"] ].

(** What the host registry does with one [waitFor] registration: it
    never calls back, or it calls back once, [after] milliseconds, with a
    component. *)
Inductive response : Type :=
| NoCallback
| CallsBack (after : Z) (component : jsval).

(** The registry seen by [ensureMenuComponents]: its answer to the
    registration for selector [index] made in attempt [n], and its answer
    to the verification registration of attempt [n]. *)
Record registry : Type := {
  query : nat → nat → response;
  critical : nat → response
}.

Inductive promise : Type :=
| Pending
| Fulfilled
| Rejected (reason : string).

(** Settling a promise twice keeps the first outcome. *)
Definition do_resolve (p : promise) : promise :=
  match p with Pending => Fulfilled | _ => p end.

Definition do_reject (reason : string) (p : promise) : promise :=
  match p with Pending => Rejected reason | _ => p end.

Inductive log_entry : Type :=
| InfoAttempt (attempt : nat)
| WarnSelectorTimedOut (index : nat)
| InfoComponentLoaded (index : nat)
| InfoVerified
| WarnRetrying (next : nat)
| ErrorFailed.

(** *** One entry of [loadPromises]: the registration raced against its timer *)

Record race : Type := {
  menuPromise : promise;
  timeout_armed : bool;
  race_log : list log_entry
}.

Inductive race_event : Type :=
| Deadline
| RegistryCallback (component : jsval).

Definition race_start : race :=
  {| menuPromise := Pending; timeout_armed := true; race_log := [] |}.

(** [Deadline]: the 2000 ms pass; the timer body runs unless
    [clearTimeout] disarmed it. [RegistryCallback]: the body of the
    callback handed to [waitFor]. *)
Definition race_step (index : nat) (r : race) (ev : race_event) : race :=
  match ev with
  | Deadline =>
      if timeout_armed r then
        {| menuPromise := do_resolve (menuPromise r);
           timeout_armed := false;
           race_log := race_log r ++ [WarnSelectorTimedOut index] |}
      else r
  | RegistryCallback component =>
      {| menuPromise := do_resolve (menuPromise r);
         timeout_armed := false;
         race_log := if truthy component
                     then race_log r ++ [InfoComponentLoaded index]
                     else race_log r |}
  end.

(** The order in which the two events reach the race. *)
Definition race_schedule (a : response) : list race_event :=
  match a with
  | NoCallback => [Deadline]
  | CallsBack after component =>
      if after <? QUERY_TIMEOUT
      then [RegistryCallback component; Deadline]
      else [Deadline; RegistryCallback component]
  end.

Definition run_race (index : nat) (evs : list race_event) : race :=
  fold_left (race_step index) evs race_start.

Definition loadPromise (index : nat) (a : response) : race :=
  run_race index (race_schedule a).

(** When the entry settles, counted from the start of the attempt. *)
Definition settle_time (a : response) : Z :=
  match a with
  | NoCallback => QUERY_TIMEOUT
  | CallsBack after _ => Z.min after QUERY_TIMEOUT
  end.

Definition loadPromises (reg : registry) (attempt : nat) : list race :=
  imap (fun index _ => loadPromise index (query reg attempt index)) menuSelectors.

(** [Promise.all]: rejected with the first rejection, fulfilled when
    every member is, pending otherwise. *)
Fixpoint promise_all (ps : list promise) : promise :=
  match ps with
  | [] => Fulfilled
  | Rejected reason :: _ => Rejected reason
  | Fulfilled :: rest => promise_all rest
  | Pending :: rest =>
      match promise_all rest with
      | Rejected reason => Rejected reason
      | _ => Pending
      end
  end.

Definition join (reg : registry) (attempt : nat) : promise :=
  promise_all (menuPromise <$> loadPromises reg attempt).

Definition join_time (reg : registry) (attempt : nat) : Z :=
  foldr Z.max 0
    (imap (fun index _ => settle_time (query reg attempt index)) menuSelectors).

(** The entries the races of an attempt write, one race after the other.
    The logger receives them in the order of their instants instead, and
    the entry of a callback that comes after its deadline only when it
    comes, which may be after later attempts have begun: [log] tells which
    entries are written, not in which order. *)
Definition join_log (reg : registry) (attempt : nat) : list log_entry :=
  concat (race_log <$> loadPromises reg attempt).

(** *** The retry loop *)

(** What one call of [ensureMenuComponents] amounts to: the state of the
    returned promise, the number of [attemptLoad] calls, the sum of the
    delays handed to the retry [setTimeout], the time of the last
    activity and the log (entries of one attempt grouped by selector). *)
Record run : Type := {
  outcome : promise;
  attempts : nat;
  retry_wait : Z;
  elapsed : Z;
  log : list log_entry
}.

Definition last_attempt (p : promise) (t : Z) (l : list log_entry) : run :=
  {| outcome := p; attempts := 1; retry_wait := 0; elapsed := t; log := l |}.

Definition then_retry (t : Z) (l : list log_entry) (r : run) : run :=
  {| outcome := outcome r;
     attempts := S (attempts r);
     retry_wait := RETRY_DELAY + retry_wait r;
     elapsed := t + RETRY_DELAY + elapsed r;
     log := l ++ log r |}.

Equations? attemptLoad (reg : registry) (attempt : nat) : run
  by wf (MAX_RETRIES - attempt)%nat lt :=
  attemptLoad reg attempt with join reg attempt => {
    | Fulfilled with critical reg attempt => {
        | NoCallback :=
            last_attempt Pending (join_time reg attempt)
              (InfoAttempt attempt :: join_log reg attempt);
        | CallsBack after component with truthy component => {
            | true :=
                last_attempt (do_resolve Pending) (join_time reg attempt + after)
                  (InfoAttempt attempt :: join_log reg attempt ++ [InfoVerified]);
            | false with lt_dec attempt MAX_RETRIES => {
                | left _ :=
                    then_retry (join_time reg attempt + after)
                      (InfoAttempt attempt :: join_log reg attempt
                         ++ [WarnRetrying (attempt + 1)])
                      (attemptLoad reg (attempt + 1));
                | right _ :=
                    last_attempt (do_reject "Menu components failed to load" Pending)
                      (join_time reg attempt + after)
                      (InfoAttempt attempt :: join_log reg attempt ++ [ErrorFailed]) } } };
    | _ :=
        last_attempt Pending (join_time reg attempt)
          (InfoAttempt attempt :: join_log reg attempt) }.
Proof. lia. Qed.

Definition ensureMenuComponents (reg : registry) : run := attemptLoad reg 1.

(** *** Vocabulary of the properties *)

(** The verification of attempt [n] called back with a truthy component. *)
Definition verified (reg : registry) (n : nat) : bool :=
  match critical reg n with
  | CallsBack _ component => truthy component
  | NoCallback => false
  end.

(** The verification of attempt [n] called back with a falsy component. *)
Definition refuted (reg : registry) (n : nat) : bool :=
  match critical reg n with
  | CallsBack _ component => negb (truthy component)
  | NoCallback => false
  end.

End MenuFix.

(** ** [src/performance-patches.ts]: the startup optimizer *)

Module PerformancePatches.

(** *** The patched global [setTimeout] *)

(** [s.includes(needle)] *)
Fixpoint includes (needle hay : string) : bool :=
  String.prefix needle hay ||
  match hay with
  | EmptyString => false
  | String _ rest => includes needle rest
  end.

(** A function value: its identity and what [toString()] returns. *)
Record callback : Type := {
  cb_ref : nat;
  cb_source : string
}.

Definition WEBPACK_PATTERN : string := "Reflect.deleteProperty".

Section SetTimeoutPatch.

Context {handle : Type}.
Variable originalSetTimeout : callback → Z → list jsval → handle.

(** The function [optimizeWebpackLoading] installs as [global.setTimeout]. *)
Definition optimizeWebpackLoading
    (cb : callback) (delay : Z) (args : list jsval) : handle :=
  if (delay =? 0) && includes WEBPACK_PATTERN (cb_source cb)
  then originalSetTimeout cb 1 args
  else originalSetTimeout cb delay args.

End SetTimeoutPatch.

(** The call the patched function hands to the original one. *)
Definition forwarded (cb : callback) (delay : Z) (args : list jsval)
  : callback * Z * list jsval :=
  optimizeWebpackLoading (fun c d a => (c, d, a)) cb delay args.

(** *** Settings, timers and the clock *)

(** The closures this file hands to [setTimeout]. *)
Inductive timer_action : Type :=
| ReenableCloudSync
| PluginInitLog.

Record timer : Type := {
  timer_id : positive;
  due : Z;
  action : timer_action
}.

Inductive log_entry : Type :=
| InfoDisablingCloudSync
| InfoReenabledCloudSync
| InfoPluginInit.

(** The part of the runtime the optimizer touches: the object heap the
    host settings live in, the pending timers in scheduling order, the
    clock in milliseconds, the next timer handle, the module variable
    [initTimeout], the log, and the number of [TypeError]s raised by a
    property access on something that is not an object. *)
Record state : Type := {
  heap : gmap loc obj;
  timers : list timer;
  now : Z;
  next_timer : positive;
  initTimeout : option positive;
  log : list log_entry;
  type_errors : nat
}.

(** The imported binding [Settings] refers to one fixed object. *)
Definition Settings : loc := 1%positive.

Definition set_heap (h : gmap loc obj) (s : state) : state :=
  {| heap := h; timers := timers s; now := now s; next_timer := next_timer s;
     initTimeout := initTimeout s; log := log s; type_errors := type_errors s |}.

Definition set_timers (ts : list timer) (s : state) : state :=
  {| heap := heap s; timers := ts; now := now s; next_timer := next_timer s;
     initTimeout := initTimeout s; log := log s; type_errors := type_errors s |}.

Definition set_now (t : Z) (s : state) : state :=
  {| heap := heap s; timers := timers s; now := t; next_timer := next_timer s;
     initTimeout := initTimeout s; log := log s; type_errors := type_errors s |}.

Definition set_initTimeout (i : option positive) (s : state) : state :=
  {| heap := heap s; timers := timers s; now := now s; next_timer := next_timer s;
     initTimeout := i; log := log s; type_errors := type_errors s |}.

Definition add_log (e : log_entry) (s : state) : state :=
  {| heap := heap s; timers := timers s; now := now s; next_timer := next_timer s;
     initTimeout := initTimeout s; log := log s ++ [e]; type_errors := type_errors s |}.

Definition raise_type_error (s : state) : state :=
  {| heap := heap s; timers := timers s; now := now s; next_timer := next_timer s;
     initTimeout := initTimeout s; log := log s; type_errors := S (type_errors s) |}.

(** [v.k]: [None] stands for the [TypeError] of reading a property of
    [undefined] or [null]; a primitive has no such property. *)
Definition read_prop (h : gmap loc obj) (v : jsval) (k : string) : option jsval :=
  match v with
  | JUndefined | JNull => None
  | JRef l => Some (get_prop (default ∅ (h !! l)) k)
  | _ => Some JUndefined
  end.

(** [v?.k] *)
Definition read_prop_opt (h : gmap loc obj) (v : jsval) (k : string) : jsval :=
  match v with
  | JUndefined | JNull => JUndefined
  | _ => default JUndefined (read_prop h v k)
  end.

(** [v.k = x]: the object behind the reference is updated in place;
    [None] stands for the [TypeError] of a module in strict mode. *)
Definition write_prop (h : gmap loc obj) (v : jsval) (k : string) (x : jsval)
  : option (gmap loc obj) :=
  match v with
  | JRef l => Some (<[l := <[k := x]> (default ∅ (h !! l))]> h)
  | _ => None
  end.

(** [Settings.cloud.settingsSync], read through the live object. *)
Definition live_settingsSync (s : state) : option jsval :=
  match read_prop (heap s) (JRef Settings) "cloud" with
  | Some cloud => read_prop (heap s) cloud "settingsSync"
  | None => None
  end.

(** [Settings.cloud.settingsSync = x] *)
Definition assign_settingsSync (x : jsval) (s : state) : option state :=
  match read_prop (heap s) (JRef Settings) "cloud" with
  | Some cloud =>
      match write_prop (heap s) cloud "settingsSync" x with
      | Some h => Some (set_heap h s)
      | None => None
      end
  | None => None
  end.

(** [setTimeout(action, delay)]: the delays of this file are positive
    constants, which the patched [setTimeout] forwards as they are. *)
Definition setTimeout (a : timer_action) (delay : Z) (s : state) : positive * state :=
  (next_timer s,
   {| heap := heap s;
      timers := timers s ++ [{| timer_id := next_timer s; due := now s + delay; action := a |}];
      now := now s;
      next_timer := Pos.succ (next_timer s);
      initTimeout := initTimeout s;
      log := log s;
      type_errors := type_errors s |}).

Definition clearTimeout (id : positive) (s : state) : state :=
  set_timers (filter (fun tm => timer_id tm ≠ id) (timers s)) s.

(** *** The exported functions *)

Definition optimizePluginInitialization (s : state) : state :=
  let s1 := match initTimeout s with
            | Some id => clearTimeout id s
            | None => s
            end in
  let '(id, s2) := setTimeout PluginInitLog 100 s1 in
  set_initTimeout (Some id) s2.

(** [{ ...Settings }] copies the own properties of [Settings] into a
    fresh object that stays local; the property values, references
    included, are the ones of [Settings]. *)
Definition disableHeavyFeaturesTemporarily (s : state) : state :=
  let originalSettings : obj := default ∅ (heap s !! Settings) in
  let cloud := get_prop originalSettings "cloud" in
  if truthy (read_prop_opt (heap s) cloud "settingsSync") then
    let s1 := add_log InfoDisablingCloudSync s in
    match write_prop (heap s1) cloud "settingsSync" (JBool false) with
    | Some h => snd (setTimeout ReenableCloudSync 5000 (set_heap h s1))
    | None => raise_type_error s1
    end
  else s.

(** *** Running the timers *)

Definition run_action (a : timer_action) (s : state) : state :=
  match a with
  | ReenableCloudSync =>
      match assign_settingsSync (JBool true) s with
      | Some s' => add_log InfoReenabledCloudSync s'
      | None => raise_type_error s
      end
  | PluginInitLog => add_log InfoPluginInit s
  end.

(** The pending timer that fires next: the earliest one, and among
    those of one instant the one scheduled first. *)
Fixpoint next_due (ts : list timer) : option timer :=
  match ts with
  | [] => None
  | tm :: rest =>
      match next_due rest with
      | Some tm' => if due tm' <? due tm then Some tm' else Some tm
      | None => Some tm
      end
  end.

Definition fire (tm : timer) (s : state) : state :=
  run_action (action tm)
    (set_now (Z.max (now s) (due tm))
       (set_timers (filter (fun x => timer_id x ≠ timer_id tm) (timers s)) s)).

(** No action of this file schedules a timer, so one round per pending
    timer is enough. *)
Fixpoint run_timers (rounds : nat) (t : Z) (s : state) : state :=
  match rounds with
  | O => s
  | S rounds' =>
      match next_due (timers s) with
      | Some tm => if due tm <=? t then run_timers rounds' t (fire tm s) else s
      | None => s
      end
  end.

(** The clock reaches [t]: every timer due by then has fired. *)
Definition advance (t : Z) (s : state) : state :=
  let s' := run_timers (length (timers s)) t s in
  set_now (Z.max (now s') t) s'.

(** What may happen between the disable action and the restore: the
    exported functions are called again, the host writes the flag, time
    passes. *)
Inductive host_step : Type :=
| CallDisableHeavyFeatures
| CallOptimizePluginInitialization
| HostSetsSync (v : jsval)
| TimePasses (dt : Z).

Definition host_run (s : state) (st : host_step) : state :=
  match st with
  | CallDisableHeavyFeatures => disableHeavyFeaturesTemporarily s
  | CallOptimizePluginInitialization => optimizePluginInitialization s
  | HostSetsSync v =>
      match assign_settingsSync v s with
      | Some s' => s'
      | None => raise_type_error s
      end
  | TimePasses dt => advance (now s + dt) s
  end.

Definition waited (st : host_step) : Z :=
  match st with
  | TimePasses dt => dt
  | _ => 0
  end.

Definition total_wait (steps : list host_step) : Z :=
  foldr (fun st acc => waited st + acc) 0 steps.

(** *** Vocabulary of the properties *)

(** [Settings.cloud] is the object at [l]. *)
Definition cloud_ref (h : gmap loc obj) (l : loc) : Prop :=
  get_prop (default ∅ (h !! Settings)) "cloud" = JRef l.

(** Timer handles are handed out once: the pending ones are pairwise
    distinct and, like the one kept in [initTimeout], below the next handle. *)
Definition fresh_handles (s : state) : Prop :=
  NoDup (timer_id <$> timers s) ∧
  Forall (fun tm => (timer_id tm < next_timer s)%positive) (timers s) ∧
  (∀ id, initTimeout s = Some id → (id < next_timer s)%positive).

(** The timer [r] is pending where nothing stands in its way: the
    settings object is in place, the handles are fresh and [initTimeout]
    holds another handle. *)
Definition awaiting (r : timer) (s : state) : Prop :=
  (∃ l, cloud_ref (heap s) l) ∧
  fresh_handles s ∧
  r ∈ timers s ∧
  initTimeout s ≠ Some (timer_id r).

End PerformancePatches.

(** ** [src/kernixcordplugins/VoiceCrashPreventer/index.ts]: the media guard *)

Module VoiceCrashPreventer.

(** [settings.store] *)
Record settings_store : Type := {
  preventCrash : bool;
  logEvents : bool
}.

(** The defaults given to [definePluginSettings]. *)
Definition default_settings : settings_store :=
  {| preventCrash := true; logEvents := false |}.

Inductive api : Type :=
| SetSinkId
| GetDisplayMedia
| GetUserMedia.

(** What a caller passes: a sink id, or the optional constraints object. *)
Inductive call_args : Type :=
| SinkArg (sinkId : string)
| ConstraintsArg (constraints : option obj).

(** What the guard puts behind [Promise.resolve(...)]. *)
Inductive fallback : Type :=
| NoValue
| EmptyMediaStream.

Section Guard.

(** The browser state the originals act on, the values they throw, the
    values they return and the receiver [this]. *)
Context {W E V This : Type}.

(** How a call ends. *)
Inductive completion (A : Type) : Type :=
| Normal (a : A)
| Throw (error : E).

Inductive event : Type :=
| Called (f : api) (this : This) (args : call_args)
| ConsoleWarn (f : api) (error : E)
| ConsoleLogElement (this : This)
| ConsoleLogConstraints (constraints : option obj).

Record machine : Type := {
  world : W;
  store : settings_store;
  trace : list event
}.

(** Computations that read and change the machine and may throw. *)
Definition M (A : Type) : Type := machine → completion A * machine.

Definition ret {A} (a : A) : M A := fun m => (Normal A a, m).

Definition throw {A} (error : E) : M A := fun m => (Throw A error, m).

Definition bind {A B} (c : M A) (k : A → M B) : M B :=
  fun m =>
    match c m with
    | (Normal _ a, m') => k a m'
    | (Throw _ error, m') => (Throw B error, m')
    end.

(** [try { body } catch (error) { handler }]: the handler starts from
    the machine the body left. *)
Definition try_catch {A} (body : M A) (handler : E → M A) : M A :=
  fun m =>
    match body m with
    | (Normal _ a, m') => (Normal A a, m')
    | (Throw _ error, m') => handler error m'
    end.

Definition emit (ev : event) : M unit :=
  fun m => (Normal unit tt,
            {| world := world m; store := store m; trace := trace m ++ [ev] |}).

Definition read_store : M settings_store := fun m => (Normal _ (store m), m).

(** An original browser entry point, applied to a receiver and its arguments. *)
Definition original : Type := W → completion V * W.

(** [original.call(this, args)]; the call is recorded. *)
Definition call (f : api) (this : This) (args : call_args) (o : original) : M V :=
  fun m =>
    let '(r, w) := o (world m) in
    (r, {| world := w; store := store m; trace := trace m ++ [Called f this args] |}).

(** What a wrapper returns: the value of the original, or a promise the
    guard resolved itself. *)
Inductive value : Type :=
| FromOriginal (v : V)
| ResolvedPromise (payload : fallback).

Local Notation "'let*' x ':=' c 'in' k" := (bind c (fun x => k))
  (at level 10, x name, c at level 100, k at level 200).
Local Notation "'perform' c 'then' k" := (bind c (fun _ => k))
  (at level 10, c at level 100, k at level 200).

Variable originalSetSinkId : This → string → original.
Variable originalGetDisplayMedia : This → option obj → original.
Variable originalGetUserMedia : This → option obj → original.

(** The function [patchVoiceModule] installs as
    [HTMLMediaElement.prototype.setSinkId]. *)
Definition setSinkId (this : This) (sinkId : string) : M value :=
  try_catch
    (let* v := call SetSinkId this (SinkArg sinkId) (originalSetSinkId this sinkId) in
     ret (FromOriginal v))
    (fun error =>
       let* st := read_store in
       if preventCrash st then
         perform emit (ConsoleWarn SetSinkId error) then
         perform (if logEvents st then emit (ConsoleLogElement this) else ret tt) then
         ret (ResolvedPromise NoValue)
       else throw error).

(** The functions [patchScreenShare] installs as
    [navigator.mediaDevices.getDisplayMedia] and [getUserMedia]. *)
Definition getDisplayMedia (this : This) (constraints : option obj) : M value :=
  try_catch
    (let* v := call GetDisplayMedia this (ConstraintsArg constraints)
                 (originalGetDisplayMedia this constraints) in
     ret (FromOriginal v))
    (fun error =>
       let* st := read_store in
       if preventCrash st then
         perform emit (ConsoleWarn GetDisplayMedia error) then
         ret (ResolvedPromise EmptyMediaStream)
       else throw error).

(** [constraints?.video] *)
Definition video_of (constraints : option obj) : jsval :=
  match constraints with
  | Some o => get_prop o "video"
  | None => JUndefined
  end.

(** [{ audio: constraints.audio }], reached only where [constraints?.video]
    is truthy, so [constraints] is an object there. *)
Definition audio_only (constraints : option obj) : obj :=
  {[ "audio" := match constraints with
                | Some o => get_prop o "audio"
                | None => JUndefined
                end ]}.

Definition getUserMedia (this : This) (constraints : option obj) : M value :=
  try_catch
    (let* v := call GetUserMedia this (ConstraintsArg constraints)
                 (originalGetUserMedia this constraints) in
     ret (FromOriginal v))
    (fun error =>
       let* st := read_store in
       if preventCrash st && truthy (video_of constraints) then
         perform emit (ConsoleWarn GetUserMedia error) then
         perform (if logEvents st then emit (ConsoleLogConstraints constraints) else ret tt) then
         let* v := call GetUserMedia this (ConstraintsArg (Some (audio_only constraints)))
                     (originalGetUserMedia this (Some (audio_only constraints))) in
         ret (FromOriginal v)
       else throw error).

(** The calls of an original that a trace records. *)
Definition is_call (f : api) (ev : event) : bool :=
  match ev with
  | Called SetSinkId _ _ => match f with SetSinkId => true | _ => false end
  | Called GetDisplayMedia _ _ => match f with GetDisplayMedia => true | _ => false end
  | Called GetUserMedia _ _ => match f with GetUserMedia => true | _ => false end
  | _ => false
  end.

Definition calls_of (f : api) (tr : list event) : list call_args :=
  omap (fun ev => match ev with
                  | Called _ _ args => if is_call f ev then Some args else None
                  | _ => None
                  end) tr.

End Guard.

Arguments completion : clear implicits.
Arguments Normal {E A} a.
Arguments Throw {E A} error.
Arguments event : clear implicits.
Arguments machine : clear implicits.
Arguments M : clear implicits.
Arguments original : clear implicits.
Arguments value : clear implicits.
Arguments FromOriginal {V} v.
Arguments ResolvedPromise {V} payload.

(** [patchVoiceModule] wraps [setSinkId] only where the prototype has it. *)
Definition patchVoiceModule {W E V This}
    (proto : option (This → string → original W E V))
  : option (This → string → M W E This (value V)) :=
  setSinkId <$> proto.

(** [patchScreenShare] replaces both entry points. *)
Definition patchScreenShare {W E V This}
    (originalGetDisplayMedia originalGetUserMedia : This → option obj → original W E V)
  : (This → option obj → M W E This (value V)) * (This → option obj → M W E This (value V)) :=
  (getDisplayMedia originalGetDisplayMedia, getUserMedia originalGetUserMedia).

End VoiceCrashPreventer.

(** ** [src/menu-fix.ts]: when the races of an attempt settle *)

Module RaceTiming.

Import MenuFix.

(** The events of one race with the instants they happen at, counted
    from the start of the attempt: the timer set by [setTimeout(..., 2000)]
    and the callback of the registry. *)
Definition timed_schedule (a : response) : list (Z * race_event) :=
  match a with
  | NoCallback => [(QUERY_TIMEOUT, Deadline)]
  | CallsBack after component =>
      if after <? QUERY_TIMEOUT
      then [(after, RegistryCallback component); (QUERY_TIMEOUT, Deadline)]
      else [(QUERY_TIMEOUT, Deadline); (after, RegistryCallback component)]
  end.

(** Running the events through [race_step]: the instant of the first
    event that takes the promise out of [Pending], if there is one. *)
Fixpoint settled_at (index : nat) (r : race) (evs : list (Z * race_event)) : option Z :=
  match evs with
  | [] => None
  | (t, ev) :: rest =>
      match menuPromise (race_step index r ev) with
      | Pending => settled_at index (race_step index r ev) rest
      | _ => Some t
      end
  end.

Definition loadPromise_settled_at (index : nat) (a : response) : option Z :=
  settled_at index race_start (timed_schedule a).

(** [Promise.all] settles with the last of its members, at once when
    there is none, and not at all while one stays pending. *)
Definition all_settled_at (members : list (option Z)) : option Z :=
  foldr (fun member rest =>
           match member, rest with
           | Some t, Some latest => Some (Z.max t latest)
           | _, _ => None
           end)
        (Some 0) members.

Definition join_settled_at (reg : registry) (attempt : nat) : option Z :=
  all_settled_at
    (imap (fun index _ => loadPromise_settled_at index (query reg attempt index))
          menuSelectors).

End RaceTiming.

(** ** [src/menu-fix.ts]: the refresh, the watchdog and the safety net *)

Module MenuMonitor.

Import MenuFix.

(** The delays of the watchdog in [monitorMenuLoading] and of the
    safety net in [applyMenuFixes], in milliseconds. *)
Definition WATCHDOG_DELAY : Z := 3000.
Definition SAFETY_NET_DELAY : Z := 5000.

(** The selector [[class*="menu-"]] handed to [document.querySelector]. *)
Definition MENU_CONTAINER : string :=
  "[class*=" +:+ dquote +:+ "menu-" +:+ dquote +:+ "]".

Section Page.

(** The values the page throws. *)
Context {E : Type}.

Inductive dom_result (A : Type) : Type :=
| Returns (a : A)
| Raises (error : E).

(** The page as [forceMenuRefresh] meets it: what [document.querySelector]
    finds (an element, numbered, or [null]), and whether [new Event(type)]
    and [window.dispatchEvent] of an event of that type go through. *)
Record page : Type := {
  querySelector : string → dom_result (option nat);
  newEvent : string → dom_result unit;
  dispatchEvent : string → dom_result unit
}.

Inductive refresh_entry : Type :=
| InfoAttemptingRefresh
| InfoRefreshTriggered
| ErrorRefreshFailed (error : E).

(** What one call of [forceMenuRefresh] did: the types of the events that
    reached the window, and the log. *)
Record refresh : Type := {
  dispatched : list string;
  refresh_log : list refresh_entry
}.

Definition forceMenuRefresh (p : page) : refresh :=
  match querySelector p MENU_CONTAINER with
  | Raises _ error =>
      {| dispatched := [];
         refresh_log := [InfoAttemptingRefresh; ErrorRefreshFailed error] |}
  | Returns _ None =>
      {| dispatched := []; refresh_log := [InfoAttemptingRefresh] |}
  | Returns _ (Some menuContainer) =>
      match newEvent p "resize" with
      | Raises _ error =>
          {| dispatched := [];
             refresh_log := [InfoAttemptingRefresh; ErrorRefreshFailed error] |}
      | Returns _ _ =>
          match dispatchEvent p "resize" with
          | Raises _ error =>
              {| dispatched := [];
                 refresh_log := [InfoAttemptingRefresh; ErrorRefreshFailed error] |}
          | Returns _ _ =>
              {| dispatched := ["resize"];
                 refresh_log := [InfoAttemptingRefresh; InfoRefreshTriggered] |}
          end
      end
  end.

(** *** [monitorMenuLoading]: the watchdog raced against the registry *)

Inductive monitor_entry : Type :=
| WarnLoadingSlow
| InfoMonitoringCompleted.

(** [loadingTimeout] still pending, the watchdog body has run, the log. *)
Record monitor : Type := {
  loadingTimeout_armed : bool;
  watchdog_fired : bool;
  monitor_log : list monitor_entry
}.

Inductive monitor_event : Type :=
| WatchdogDeadline
| MenuReady (component : jsval).

(** After [startMonitoring]. *)
Definition monitor_start : monitor :=
  {| loadingTimeout_armed := true; watchdog_fired := false; monitor_log := [] |}.

(** [WatchdogDeadline]: the 3000 ms pass; the timer body runs unless
    [stopMonitoring] cleared it. [MenuReady]: the callback handed to
    [waitFor], which does not look at the component. *)
Definition monitor_step (mon : monitor) (ev : monitor_event) : monitor :=
  match ev with
  | WatchdogDeadline =>
      if loadingTimeout_armed mon then
        {| loadingTimeout_armed := false;
           watchdog_fired := true;
           monitor_log := monitor_log mon ++ [WarnLoadingSlow] |}
      else mon
  | MenuReady _ =>
      {| loadingTimeout_armed := false;
         watchdog_fired := watchdog_fired mon;
         monitor_log := monitor_log mon ++ [InfoMonitoringCompleted] |}
  end.

Definition monitor_schedule (ready : response) : list monitor_event :=
  match ready with
  | NoCallback => [WatchdogDeadline]
  | CallsBack after component =>
      if after <? WATCHDOG_DELAY
      then [MenuReady component; WatchdogDeadline]
      else [WatchdogDeadline; MenuReady component]
  end.

Definition monitorMenuLoading (ready : response) : monitor :=
  fold_left monitor_step (monitor_schedule ready) monitor_start.

(** *** [applyMenuFixes] *)

(** [ensureMenuComponents().catch(() => forceMenuRefresh())]: the
    refresh runs when the waiter rejects, on the page of that moment. *)
Definition catch_refresh (waiter : run) (p : page) : option refresh :=
  match outcome waiter with
  | Rejected _ => Some (forceMenuRefresh p)
  | _ => None
  end.

Inductive fixes_entry : Type :=
| InfoApplyingFixes
| InfoFixesApplied
| ErrorComponentsFailed (reason : string).

(** What the [catch] of the safety net logs before it refreshes. *)
Definition catch_log (waiter : run) : list fixes_entry :=
  match outcome waiter with
  | Rejected reason => [ErrorComponentsFailed reason]
  | _ => []
  end.

(** What [applyMenuFixes] sets going: the monitor, the waiter the
    watchdog starts (if it fires) and the one the safety net starts, each
    with the refresh that follows its rejection, and its own log. *)
Record fixes : Type := {
  monitoring : monitor;
  watchdog_waiter : option run;
  watchdog_refresh : option refresh;
  safety_waiter : run;
  safety_refresh : option refresh;
  fixes_log : list fixes_entry
}.

(** [ready] is the registry's answer to the monitor's registration;
    [at_watchdog] and [at_safety_net] are the registry and [page_watchdog]
    and [page_safety_net] the page as the two waiters find them. *)
Definition applyMenuFixes
    (ready : response) (at_watchdog at_safety_net : registry)
    (page_watchdog page_safety_net : page) : fixes :=
  let mon := monitorMenuLoading ready in
  let first :=
    if watchdog_fired mon then Some (ensureMenuComponents at_watchdog) else None in
  {| monitoring := mon;
     watchdog_waiter := first;
     watchdog_refresh := first ≫= (fun waiter => catch_refresh waiter page_watchdog);
     safety_waiter := ensureMenuComponents at_safety_net;
     safety_refresh := catch_refresh (ensureMenuComponents at_safety_net) page_safety_net;
     fixes_log := [InfoApplyingFixes; InfoFixesApplied]
                  ++ catch_log (ensureMenuComponents at_safety_net) |}.

(** The [resize] events [applyMenuFixes] sends to the window, in all. *)
Definition resize_events (f : fixes) : list string :=
  from_option dispatched [] (watchdog_refresh f)
  ++ from_option dispatched [] (safety_refresh f).

End Page.

Arguments dom_result : clear implicits.
Arguments Returns {E A} a.
Arguments Raises {E A} error.
Arguments page : clear implicits.
Arguments refresh_entry : clear implicits.
Arguments refresh : clear implicits.
Arguments fixes : clear implicits.

End MenuMonitor.

(** ** [src/performance-patches.ts]: the module cache and the debounce *)

Module StartupOptimizer.

Import PerformancePatches.

Definition criticalMenuItems : list string :=
  [ "MenuCheckboxItem"; "Menu"; "MenuSliderControl"; "MenuSearchControl" ].

(** [moduleCache] is a [Map<string, any>]; [has] asks for the key, whatever
    it is bound to. *)
Definition optimizeMenuLoading (moduleCache : gmap string jsval) : gmap string jsval :=
  foldl (fun cache itemName =>
           match cache !! itemName with
           | Some _ => cache
           | None => <[itemName := JNull]> cache
           end)
        moduleCache criticalMenuItems.

(** *** Vocabulary of the debounce *)

Definition is_plugin_init (tm : timer) : bool :=
  match action tm with
  | PluginInitLog => true
  | ReenableCloudSync => false
  end.

(** The pending timers of [optimizePluginInitialization]. *)
Definition plugin_init_timers (s : state) : list timer :=
  filter (fun tm => is_plugin_init tm = true) (timers s).

(** Every such timer is the one [initTimeout] remembers. *)
Definition debounced (s : state) : Prop :=
  ∀ tm, tm ∈ timers s → is_plugin_init tm = true →
        initTimeout s = Some (timer_id tm).

(** Right after a call: one initialization timer, due in 100 ms. *)
Definition just_called (s : state) : Prop :=
  fresh_handles s ∧ debounced s ∧
  ∃ tm, plugin_init_timers s = [tm] ∧ due tm = now s + 100.

(** How often the initialization has been announced. *)
Definition plugin_inits (s : state) : nat :=
  length (filter (fun e => match e with InfoPluginInit => true | _ => false end = true)
            (log s)).

(** A burst of calls of [optimizePluginInitialization]: the first one,
    then one more after each gap. *)
Definition burst (gaps : list Z) : list host_step :=
  CallOptimizePluginInitialization
  :: flat_map (fun gap => [TimePasses gap; CallOptimizePluginInitialization]) gaps.

End StartupOptimizer.

(** ** [VoiceCrashPreventer]: [start], [stop] and what they leave installed *)

Module PluginLifecycle.

Import VoiceCrashPreventer.

(** A function found in one of the three slots: the browser's own, or a
    wrapper closed over the function that was there when it was made. *)
Inductive installed : Type :=
| Native
| Guarded (inner : installed).

(** [HTMLMediaElement.prototype.setSinkId], which a browser may lack,
    and the two methods of [navigator.mediaDevices]. *)
Record media_api : Type := {
  mediaElement_setSinkId : option installed;
  mediaDevices_getDisplayMedia : installed;
  mediaDevices_getUserMedia : installed
}.

Definition patchVoiceModule (b : media_api) : media_api :=
  match mediaElement_setSinkId b with
  | Some originalSetSinkId =>
      {| mediaElement_setSinkId := Some (Guarded originalSetSinkId);
         mediaDevices_getDisplayMedia := mediaDevices_getDisplayMedia b;
         mediaDevices_getUserMedia := mediaDevices_getUserMedia b |}
  | None => b
  end.

Definition patchScreenShare (b : media_api) : media_api :=
  {| mediaElement_setSinkId := mediaElement_setSinkId b;
     mediaDevices_getDisplayMedia := Guarded (mediaDevices_getDisplayMedia b);
     mediaDevices_getUserMedia := Guarded (mediaDevices_getUserMedia b) |}.

Definition start (b : media_api) : media_api :=
  patchScreenShare (patchVoiceModule b).

Definition stop (b : media_api) : media_api := b.

(** The user switches the plugin on and off. *)
Inductive toggle : Type :=
| Start
| Stop.

Definition toggle_run (b : media_api) (t : toggle) : media_api :=
  match t with
  | Start => start b
  | Stop => stop b
  end.

Fixpoint starts (ts : list toggle) : nat :=
  match ts with
  | [] => O
  | Start :: rest => S (starts rest)
  | Stop :: rest => starts rest
  end.

Definition guards (n : nat) : installed := Nat.iter n Guarded Native.

(** The browser before the plugin has touched it. *)
Definition native_api (has_setSinkId : bool) : media_api :=
  {| mediaElement_setSinkId := if has_setSinkId then Some Native else None;
     mediaDevices_getDisplayMedia := Native;
     mediaDevices_getUserMedia := Native |}.

Section Run.

Context {W E V This : Type}.
Variable originalSetSinkId : This → string → original W E V.
Variable originalGetDisplayMedia : This → option obj → original W E V.
Variable originalGetUserMedia : This → option obj → original W E V.

Local Notation "'let*' x ':=' c 'in' k" := (bind c (fun x => k))
  (at level 10, x name, c at level 100, k at level 200).
Local Notation "'perform' c 'then' k" := (bind c (fun _ => k))
  (at level 10, c at level 100, k at level 200).

(** Calling what a slot holds: the browser's function, or the wrapper
    body of [patchVoiceModule] and [patchScreenShare] around the function
    it closed over. *)
Fixpoint call_setSinkId (f : installed) (this : This) (sinkId : string)
  : M W E This (value V) :=
  match f with
  | Native =>
      let* v := call SetSinkId this (SinkArg sinkId) (originalSetSinkId this sinkId) in
      ret (FromOriginal v)
  | Guarded inner =>
      try_catch (call_setSinkId inner this sinkId)
        (fun error =>
           let* st := read_store in
           if preventCrash st then
             perform emit (ConsoleWarn SetSinkId error) then
             perform (if logEvents st then emit (ConsoleLogElement this) else ret tt) then
             ret (ResolvedPromise NoValue)
           else throw error)
  end.

Fixpoint call_getDisplayMedia (f : installed) (this : This) (constraints : option obj)
  : M W E This (value V) :=
  match f with
  | Native =>
      let* v := call GetDisplayMedia this (ConstraintsArg constraints)
                  (originalGetDisplayMedia this constraints) in
      ret (FromOriginal v)
  | Guarded inner =>
      try_catch (call_getDisplayMedia inner this constraints)
        (fun error =>
           let* st := read_store in
           if preventCrash st then
             perform emit (ConsoleWarn GetDisplayMedia error) then
             ret (ResolvedPromise EmptyMediaStream)
           else throw error)
  end.

Fixpoint call_getUserMedia (f : installed) (this : This)
  : option obj → M W E This (value V) :=
  match f with
  | Native => fun constraints =>
      let* v := call GetUserMedia this (ConstraintsArg constraints)
                  (originalGetUserMedia this constraints) in
      ret (FromOriginal v)
  | Guarded inner => fun constraints =>
      try_catch (call_getUserMedia inner this constraints)
        (fun error =>
           let* st := read_store in
           if preventCrash st && truthy (video_of constraints) then
             perform emit (ConsoleWarn GetUserMedia error) then
             perform (if logEvents st
                      then emit (ConsoleLogConstraints constraints) else ret tt) then
             call_getUserMedia inner this (Some (audio_only constraints))
           else throw error)
  end.

End Run.

(** *** Vocabulary of the properties *)

(** The machine with [settings.store.logEvents] set to [b]. *)
Definition with_logEvents {W E This} (b : bool) (m : machine W E This) : machine W E This :=
  {| world := world m;
     store := {| preventCrash := preventCrash (store m); logEvents := b |};
     trace := trace m |}.

Definition is_console_log {E This} (ev : event E This) : bool :=
  match ev with
  | ConsoleLogElement _ | ConsoleLogConstraints _ => true
  | _ => false
  end.

(** A trace without its [console.log] entries. *)
Definition without_logs {E This} (tr : list (event E This)) : list (event E This) :=
  filter (fun ev => is_console_log ev = false) tr.

(** How many warnings a trace holds. *)
Definition warnings {E This} (tr : list (event E This)) : nat :=
  length (filter (fun ev => match ev with ConsoleWarn _ _ => true | _ => false end = true) tr).

End PluginLifecycle.

(** ** Concrete runs *)

Module Scenarios.

Import MenuFix.

(** The registry holds no menu component: no registration is ever answered. *)
Definition silent_registry : registry :=
  {| query := fun _ _ => NoCallback; critical := fun _ => NoCallback |}.

(** Every query times out; the verification calls back with [null]
    twice and with a component the third time. *)
Definition third_time_registry : registry :=
  {| query := fun _ _ => NoCallback;
     critical := fun n => CallsBack 10 (if (n =? 3)%nat then JRef 7%positive else JNull) |}.

(** Every query is answered at once with a component; the verification
    answers as in [third_time_registry]. *)
Definition prompt_registry : registry :=
  {| query := fun _ index => CallsBack (Z.of_nat index * 100) (JRef 7%positive);
     critical := fun n => CallsBack 10 (if (n =? 3)%nat then JRef 7%positive else JNull) |}.

(** Every verification calls back with [undefined]. *)
Definition empty_handed_registry : registry :=
  {| query := fun _ index => CallsBack (Z.of_nat index * 700) (JRef 7%positive);
     critical := fun _ => CallsBack 0 JUndefined |}.

Import PerformancePatches.

(** A zero-delay callback of the host's module patcher. *)
Definition webpack_callback : callback :=
  {| cb_ref := 0; cb_source := "()=>{Reflect.deleteProperty(e,t)}" |}.

(** A freshly started host with cloud sync switched on. *)
Definition fresh_start : state :=
  {| heap := <[Settings := {["cloud" := JRef 2%positive]}]>
               {[2%positive := {["settingsSync" := JBool true]}]};
     timers := [];
     now := 0;
     next_timer := 1;
     initTimeout := None;
     log := [];
     type_errors := 0 |}.

(** A busy five seconds: plugin initialization is requested twice, the
    user switches sync back on, the disable action runs again. *)
Definition busy_startup : list host_step :=
  [ TimePasses 10;
    CallOptimizePluginInitialization;
    TimePasses 50;
    CallOptimizePluginInitialization;
    HostSetsSync (JBool true);
    CallDisableHeavyFeatures;
    TimePasses 4900 ].

Import VoiceCrashPreventer.

(** A camera stack that throws on any request for video and counts its
    calls; errors are their messages, streams are numbered. *)
Definition broken_camera : unit → option obj → original nat string nat :=
  fun _ constraints calls =>
    if truthy (video_of constraints)
    then (Throw "NotReadableError", S calls)
    else (Normal calls, S calls).

(** An audio sink and a screen capture that always throw. *)
Definition broken_sink : unit → string → original nat string nat :=
  fun _ _ calls => (Throw "AbortError", S calls).

Definition broken_capture : unit → option obj → original nat string nat :=
  fun _ _ calls => (Throw "InvalidStateError", S calls).

(** A microphone the user has not released to the page. *)
Definition dead_microphone : unit → option obj → original nat string nat :=
  fun _ _ calls => (Throw "NotAllowedError", S calls).

(** [{ audio: true, video: true }] and [{ audio: true }] *)
Definition camera_call : obj := <["video" := JBool true]> {["audio" := JBool true]}.
Definition voice_call : obj := {["audio" := JBool true]}.

(** The plugin as installed, and with [preventCrash] switched off. *)
Definition guarded : machine nat string unit :=
  {| world := 0%nat; store := default_settings; trace := [] |}.

Definition unguarded : machine nat string unit :=
  {| world := 0%nat;
     store := {| preventCrash := false; logEvents := false |};
     trace := [] |}.

End Scenarios.

(** * Properties *)

(** ** JavaScript values *)

Module JSFacts.

Lemma truthy_ref l : truthy (JRef l) = true.
Proof. reflexivity. Qed.

Lemma truthy_is_ref_or_primitive v :
  truthy v = true → v ≠ JUndefined ∧ v ≠ JNull.
Proof. destruct v; simpl; intros H; split; congruence. Qed.

Lemma get_prop_insert_eq (o : obj) k v : get_prop (<[k:=v]> o) k = v.
Proof. unfold get_prop. by rewrite lookup_insert_eq. Qed.

Lemma get_prop_insert_ne (o : obj) k k' v :
  k ≠ k' → get_prop (<[k:=v]> o) k' = get_prop o k'.
Proof. intros Hne. unfold get_prop. by rewrite lookup_insert_ne. Qed.

End JSFacts.

(** ** The component-availability waiter *)

Module MenuFixFacts.

Import MenuFix.

(** *** The per-query race *)

Lemma race_step_keeps_fulfilled index r ev :
  menuPromise r = Fulfilled → menuPromise (race_step index r ev) = Fulfilled.
Proof.
  intros Hr. destruct ev; simpl.
  - destruct (timeout_armed r); simpl; [by rewrite Hr | done].
  - by rewrite Hr.
Qed.

Lemma fold_race_keeps_fulfilled index evs r :
  menuPromise r = Fulfilled →
  menuPromise (fold_left (race_step index) evs r) = Fulfilled.
Proof.
  revert r. induction evs as [|ev evs IH]; intros r Hr; simpl; [done|].
  apply IH. by apply race_step_keeps_fulfilled.
Qed.

(** Whatever reaches the race first settles it, and settles it as resolved. *)
Lemma run_race_fulfilled index evs :
  evs ≠ [] → menuPromise (run_race index evs) = Fulfilled.
Proof.
  destruct evs as [|ev evs]; [done|]. intros _. unfold run_race. simpl.
  apply fold_race_keeps_fulfilled. by destruct ev.
Qed.

Lemma race_schedule_nonempty a : race_schedule a ≠ [].
Proof.
  destruct a as [|after component]; simpl; [done|].
  by destruct (after <? QUERY_TIMEOUT).
Qed.

Lemma loadPromise_fulfilled index a : menuPromise (loadPromise index a) = Fulfilled.
Proof. apply run_race_fulfilled, race_schedule_nonempty. Qed.

Lemma promise_all_fulfilled (ps : list promise) :
  Forall (fun p => p = Fulfilled) ps → promise_all ps = Fulfilled.
Proof. induction 1 as [|p ps -> _ IH]; simpl; done. Qed.

Lemma join_fulfilled reg attempt : join reg attempt = Fulfilled.
Proof.
  unfold join, loadPromises. apply promise_all_fulfilled.
  apply Forall_fmap, Forall_lookup_2. intros i r Hr.
  apply list_lookup_imap_Some in Hr as (sel & _ & ->).
  simpl. apply loadPromise_fulfilled.
Qed.

(** *** The retry loop, one attempt at a time *)

Lemma attemptLoad_unfold reg attempt :
  attemptLoad reg attempt =
  match critical reg attempt with
  | NoCallback =>
      last_attempt Pending (join_time reg attempt)
        (InfoAttempt attempt :: join_log reg attempt)
  | CallsBack after component =>
      if truthy component then
        last_attempt Fulfilled (join_time reg attempt + after)
          (InfoAttempt attempt :: join_log reg attempt ++ [InfoVerified])
      else if decide (attempt < MAX_RETRIES)%nat then
        then_retry (join_time reg attempt + after)
          (InfoAttempt attempt :: join_log reg attempt ++ [WarnRetrying (attempt + 1)])
          (attemptLoad reg (attempt + 1))
      else
        last_attempt (Rejected "Menu components failed to load")
          (join_time reg attempt + after)
          (InfoAttempt attempt :: join_log reg attempt ++ [ErrorFailed])
  end.
Proof.
  simp attemptLoad. rewrite join_fulfilled. simpl.
  destruct (critical reg attempt) as [|after component]; simpl; [done|].
  destruct (truthy component); simpl; [done|].
  destruct (lt_dec attempt MAX_RETRIES); simpl; case_decide; try done; try lia.
  f_equal. by simp attemptLoad.
Qed.

(** The outcome, the number of attempts and the retry delays are decided
    by the answers to the verification alone. *)
Lemma attemptLoad_query_irrelevant reg reg' :
  (∀ n, critical reg n = critical reg' n) →
  ∀ n attempt, (MAX_RETRIES - attempt = n)%nat →
    outcome (attemptLoad reg attempt) = outcome (attemptLoad reg' attempt) ∧
    attempts (attemptLoad reg attempt) = attempts (attemptLoad reg' attempt) ∧
    retry_wait (attemptLoad reg attempt) = retry_wait (attemptLoad reg' attempt).
Proof.
  intros Hc n. induction n as [|n IH]; intros attempt Hn;
    rewrite (attemptLoad_unfold reg), (attemptLoad_unfold reg'), <- Hc;
    destruct (critical reg attempt) as [|after component]; simpl; try done;
    destruct (truthy component); simpl; try done;
    case_decide; simpl; try done; try lia.
  destruct (IH (attempt + 1)%nat) as (-> & -> & ->); [lia | done].
Qed.

(** Which answers make the loop resolve. *)
Lemma attemptLoad_fulfilled_iff reg :
  ∀ n attempt, (MAX_RETRIES - attempt = n)%nat →
    outcome (attemptLoad reg attempt) = Fulfilled ↔
    ∃ k, (attempt ≤ k ≤ Nat.max attempt MAX_RETRIES)%nat ∧
         (∀ j, (attempt ≤ j < k)%nat → refuted reg j = true) ∧
         verified reg k = true.
Proof.
  intros n. induction n as [|n IH]; intros attempt Hn;
    rewrite attemptLoad_unfold;
    destruct (critical reg attempt) as [|after component] eqn:Hc; simpl.
  - split; [done|]. intros (k & Hk & Hpre & Hv).
    destruct (decide (k = attempt)) as [->|Hne].
    + unfold verified in Hv. by rewrite Hc in Hv.
    + specialize (Hpre attempt ltac:(lia)). unfold refuted in Hpre. by rewrite Hc in Hpre.
  - destruct (truthy component) eqn:Ht; simpl.
    + split; [|done]. intros _. exists attempt. split; [lia|]. split; [intros; lia|].
      unfold verified. by rewrite Hc.
    + case_decide; [lia|]. simpl. split; [done|]. intros (k & Hk & _ & Hv).
      assert (k = attempt) as -> by lia. unfold verified in Hv. rewrite Hc in Hv. congruence.
  - split; [done|]. intros (k & Hk & Hpre & Hv).
    destruct (decide (k = attempt)) as [->|Hne].
    + unfold verified in Hv. by rewrite Hc in Hv.
    + specialize (Hpre attempt ltac:(lia)). unfold refuted in Hpre. by rewrite Hc in Hpre.
  - destruct (truthy component) eqn:Ht; simpl.
    + split; [|done]. intros _. exists attempt. split; [lia|]. split; [intros; lia|].
      unfold verified. by rewrite Hc.
    + case_decide; [|lia]. simpl. rewrite (IH (attempt + 1)%nat) by lia. split.
      * intros (k & Hk & Hpre & Hv). exists k. split; [lia|]. split; [|done].
        intros j Hj. destruct (decide (j = attempt)) as [->|Hne].
        -- unfold refuted. by rewrite Hc, Ht.
        -- apply Hpre. lia.
      * intros (k & Hk & Hpre & Hv).
        destruct (decide (k = attempt)) as [->|Hne].
        -- unfold verified in Hv. rewrite Hc in Hv. congruence.
        -- exists k. split; [lia|]. split; [|done]. intros j Hj. apply Hpre. lia.
Qed.

(** The loop stops at attempt [MAX_RETRIES] at the latest. *)
Lemma attemptLoad_attempts_bound reg :
  ∀ n attempt, (MAX_RETRIES - attempt = n)%nat →
    (1 ≤ attempts (attemptLoad reg attempt))%nat ∧
    (attempt + attempts (attemptLoad reg attempt) ≤ Nat.max attempt MAX_RETRIES + 1)%nat.
Proof.
  intros n. induction n as [|n IH]; intros attempt Hn;
    rewrite attemptLoad_unfold;
    destruct (critical reg attempt) as [|after component]; simpl; try lia;
    destruct (truthy component); simpl; try lia;
    case_decide; simpl; try lia.
  specialize (IH (attempt + 1)%nat ltac:(lia)). lia.
Qed.

(** Every retry hands the same delay to [setTimeout]. *)
Lemma attemptLoad_retry_wait reg :
  ∀ n attempt, (MAX_RETRIES - attempt = n)%nat →
    retry_wait (attemptLoad reg attempt)
    = RETRY_DELAY * (Z.of_nat (attempts (attemptLoad reg attempt)) - 1).
Proof.
  intros n. induction n as [|n IH]; intros attempt Hn;
    rewrite attemptLoad_unfold;
    destruct (critical reg attempt) as [|after component]; simpl; try lia;
    destruct (truthy component); simpl; try lia;
    case_decide; simpl; try lia.
  rewrite (IH (attempt + 1)%nat) by lia. lia.
Qed.

(** Where every verification calls back with a falsy component, the loop
    runs through all its attempts and rejects. *)
Lemma attemptLoad_all_refuted reg :
  ∀ n attempt, (MAX_RETRIES - attempt = n)%nat → (attempt ≤ MAX_RETRIES)%nat →
    (∀ j, (attempt ≤ j ≤ MAX_RETRIES)%nat → refuted reg j = true) →
    outcome (attemptLoad reg attempt) = Rejected "Menu components failed to load" ∧
    attempts (attemptLoad reg attempt) = S n.
Proof.
  intros n. induction n as [|n IH]; intros attempt Hn Hle Href;
    rewrite attemptLoad_unfold;
    pose proof (Href attempt ltac:(lia)) as Ha; unfold refuted in Ha;
    destruct (critical reg attempt) as [|after component]; try done;
    destruct (truthy component); try done;
    case_decide; simpl; try done; try lia.
  destruct (IH (attempt + 1)%nat) as [-> ->]; try lia; [|done].
  intros j Hj. apply Href. lia.
Qed.

Lemma ensureMenuComponents_all_refuted reg :
  (∀ j, (1 ≤ j ≤ MAX_RETRIES)%nat → refuted reg j = true) →
  outcome (ensureMenuComponents reg) = Rejected "Menu components failed to load" ∧
  attempts (ensureMenuComponents reg) = 5%nat ∧
  retry_wait (ensureMenuComponents reg) = 4000.
Proof.
  intros Href. unfold ensureMenuComponents.
  destruct (attemptLoad_all_refuted reg 4 1) as [Ho Ha];
    [reflexivity | unfold MAX_RETRIES; lia | exact Href |].
  rewrite (attemptLoad_retry_wait reg 4 1), Ho, Ha by reflexivity. done.
Qed.

(** A verification that is never answered leaves the promise pending. *)
Lemma attemptLoad_unanswered reg attempt :
  critical reg attempt = NoCallback →
  outcome (attemptLoad reg attempt) = Pending ∧
  attempts (attemptLoad reg attempt) = 1%nat ∧
  retry_wait (attemptLoad reg attempt) = 0.
Proof. intros Hc. rewrite attemptLoad_unfold, Hc. done. Qed.

(** *** Two runs *)

(** The verification succeeds on the third attempt: two retry delays. *)
Example third_attempt_resolves :
  outcome (ensureMenuComponents Scenarios.third_time_registry) = Fulfilled ∧
  attempts (ensureMenuComponents Scenarios.third_time_registry) = 3%nat ∧
  retry_wait (ensureMenuComponents Scenarios.third_time_registry) = 2000.
Proof. by vm_compute. Qed.

(** Every verification comes back empty-handed: five attempts, four delays. *)
Example empty_handed_rejects :
  outcome (ensureMenuComponents Scenarios.empty_handed_registry)
  = Rejected "Menu components failed to load" ∧
  attempts (ensureMenuComponents Scenarios.empty_handed_registry) = 5%nat ∧
  retry_wait (ensureMenuComponents Scenarios.empty_handed_registry) = 4000.
Proof. by apply ensureMenuComponents_all_refuted. Qed.

(** *** The claims about the waiter *)

(** C1: [ensureMenuComponents] resolves exactly when the verification of
    the critical component calls back with a truthy component in one of
    the attempts 1..5 that the loop reaches (every earlier verification
    having called back with a falsy one); the loop makes at least one and
    at most [MAX_RETRIES] = 5 attempts. *)
Theorem ensureMenuComponents_resolves_iff (reg : registry) :
  (outcome (ensureMenuComponents reg) = Fulfilled ↔
   ∃ k, (1 ≤ k ≤ MAX_RETRIES)%nat ∧
        (∀ j, (1 ≤ j < k)%nat → refuted reg j = true) ∧
        verified reg k = true) ∧
  (1 ≤ attempts (ensureMenuComponents reg) ≤ MAX_RETRIES)%nat.
Proof.
  unfold ensureMenuComponents. split.
  - apply (attemptLoad_fulfilled_iff reg 4 1). reflexivity.
  - destruct (attemptLoad_attempts_bound reg 4 1) as [H1 H2]; [reflexivity|].
    unfold MAX_RETRIES in *. simpl in H2. lia.
Qed.

(** C2, at the registry that never answers: the critical query never
    resolves to a truthy component, yet the promise stays pending after a
    single attempt and no retry delay is scheduled; the loop neither
    reaches five attempts nor rejects. *)
Theorem unanswered_verification_never_rejects :
  (∀ n, verified Scenarios.silent_registry n = false) ∧
  outcome (ensureMenuComponents Scenarios.silent_registry) = Pending ∧
  attempts (ensureMenuComponents Scenarios.silent_registry) = 1%nat ∧
  retry_wait (ensureMenuComponents Scenarios.silent_registry) = 0.
Proof. split; [done|]. by apply attemptLoad_unanswered. Qed.

(** C3: each per-query race resolves and never rejects, whichever of
    the timer and the registry comes first and in whatever order its events
    arrive; and the waiter is gated by the verification of the critical
    component alone: with the same verification answers, a waiter whose
    per-query registrations [q] are arbitrary (all timed out, say) ends,
    attempts and waits exactly as the waiter of [reg] does; it resolves
    exactly when a reached verification calls back with a truthy component
    (so not when the critical component stays absent), and whenever that
    happens it does not reject, however many queries timed out. *)
Theorem query_timeout_never_fatal
    (reg : registry) (q : nat → nat → response) (index : nat) (a : response) :
  let timed_out := {| query := q; critical := critical reg |} in
  let critical_found :=
    ∃ k, (1 ≤ k ≤ MAX_RETRIES)%nat ∧
         (∀ j, (1 ≤ j < k)%nat → refuted reg j = true) ∧
         verified reg k = true in
  (menuPromise (loadPromise index a) = Fulfilled ∧
   ∀ evs, evs ≠ [] → menuPromise (run_race index evs) = Fulfilled) ∧
  (outcome (ensureMenuComponents timed_out) = outcome (ensureMenuComponents reg) ∧
   attempts (ensureMenuComponents timed_out) = attempts (ensureMenuComponents reg) ∧
   retry_wait (ensureMenuComponents timed_out) = retry_wait (ensureMenuComponents reg)) ∧
  (outcome (ensureMenuComponents timed_out) = Fulfilled ↔ critical_found) ∧
  (critical_found →
   ∀ reason, outcome (ensureMenuComponents timed_out) ≠ Rejected reason).
Proof.
  intros timed_out critical_found.
  assert (outcome (ensureMenuComponents timed_out) = Fulfilled ↔ critical_found) as Hiff.
  { unfold ensureMenuComponents.
    apply (attemptLoad_fulfilled_iff timed_out 4 1). reflexivity. }
  split_and!.
  - apply loadPromise_fulfilled.
  - intros evs Hevs. by apply run_race_fulfilled.
  - unfold ensureMenuComponents.
    by destruct (attemptLoad_query_irrelevant timed_out reg
                   ltac:(done) 4 1 ltac:(reflexivity)) as (-> & _).
  - unfold ensureMenuComponents.
    by destruct (attemptLoad_query_irrelevant timed_out reg
                   ltac:(done) 4 1 ltac:(reflexivity)) as (_ & -> & _).
  - unfold ensureMenuComponents.
    by destruct (attemptLoad_query_irrelevant timed_out reg
                   ltac:(done) 4 1 ltac:(reflexivity)) as (_ & _ & ->).
  - exact Hiff.
  - intros Hfound reason. apply Hiff in Hfound. by rewrite Hfound.
Qed.

(** Every query of [prompt_registry] is answered at once; with all of
    them timed out instead the waiter still resolves, and with the critical
    component absent it does not. *)
Lemma query_timeout_never_fatal_witness :
  outcome (ensureMenuComponents
             {| query := fun _ _ => NoCallback;
                critical := critical Scenarios.prompt_registry |})
  = outcome (ensureMenuComponents Scenarios.prompt_registry) ∧
  outcome (ensureMenuComponents
             {| query := fun _ _ => NoCallback;
                critical := critical Scenarios.prompt_registry |}) = Fulfilled ∧
  outcome (ensureMenuComponents
             {| query := query Scenarios.prompt_registry;
                critical := critical Scenarios.silent_registry |}) ≠ Fulfilled.
Proof.
  destruct (query_timeout_never_fatal Scenarios.prompt_registry
              (fun _ _ => NoCallback) 0 NoCallback)
    as (_ & (Hsame & _) & Hfound & _).
  destruct (query_timeout_never_fatal Scenarios.silent_registry
              (query Scenarios.prompt_registry) 0 NoCallback)
    as (_ & _ & Habsent & _).
  split_and!.
  - exact Hsame.
  - apply Hfound. exists 3%nat. split; [unfold MAX_RETRIES; lia|]. split; [|reflexivity].
    intros j Hj. assert (j = 1 ∨ j = 2)%nat as [-> | ->] by lia; reflexivity.
  - intros Hresolved. apply Habsent in Hresolved as (k & _ & _ & Hverified).
    discriminate Hverified.
Defined.

End MenuFixFacts.

(** ** The startup optimizer *)

Module PerformancePatchesFacts.

Import PerformancePatches JSFacts.

(** *** [includes] finds exactly the substrings *)

Lemma append_cons c (s t : string) : String c s +:+ t = String c (s +:+ t).
Proof. reflexivity. Qed.

Lemma append_nil (t : string) : EmptyString +:+ t = t.
Proof. reflexivity. Qed.

Lemma prefix_spec (needle hay : string) :
  String.prefix needle hay = true ↔ ∃ post, hay = needle +:+ post.
Proof.
  revert hay. induction needle as [|c needle IH]; intros [|c' hay]; simpl.
  - split; [|done]. intros _. by exists EmptyString.
  - split; [|done]. intros _. by exists (String c' hay).
  - split; [done|]. intros [post Hpost]. by rewrite append_cons in Hpost.
  - setoid_rewrite append_cons. destruct (Ascii.ascii_dec c c') as [->|Hne].
    + rewrite IH. split; intros [post Hpost]; exists post; congruence.
    + split; [done|]. intros [post Hpost]. congruence.
Qed.

Lemma includes_nil (needle : string) :
  includes needle EmptyString = String.prefix needle EmptyString || false.
Proof. reflexivity. Qed.

Lemma includes_cons (needle : string) c (hay : string) :
  includes needle (String c hay)
  = String.prefix needle (String c hay) || includes needle hay.
Proof. reflexivity. Qed.

Lemma includes_spec (needle hay : string) :
  includes needle hay = true ↔ ∃ pre post, hay = pre +:+ needle +:+ post.
Proof.
  induction hay as [|c hay IH]; [rewrite includes_nil | rewrite includes_cons].
  - rewrite orb_false_r, prefix_spec. split.
    + intros [post Hpost]. by exists EmptyString, post.
    + intros (pre & post & Hhay). destruct pre as [|c pre].
      * by exists post.
      * by rewrite append_cons in Hhay.
  - rewrite orb_true_iff, prefix_spec, IH. split.
    + intros [[post Hpost] | (pre & post & Hhay)].
      * by exists EmptyString, post.
      * exists (String c pre), post. by rewrite append_cons, Hhay.
    + intros (pre & post & Hhay). destruct pre as [|c' pre].
      * left. by exists post.
      * right. exists pre, post. rewrite append_cons in Hhay. congruence.
Qed.

(** The patched function is the original one behind a change of delay. *)
Lemma optimizeWebpackLoading_forwards {handle : Type}
    (originalSetTimeout : callback → Z → list jsval → handle) cb delay args :
  optimizeWebpackLoading originalSetTimeout cb delay args
  = (let '(c, d, a) := forwarded cb delay args in originalSetTimeout c d a).
Proof.
  unfold forwarded, optimizeWebpackLoading.
  by destruct ((delay =? 0) && includes WEBPACK_PATTERN (cb_source cb)).
Qed.

(** *** The settings object *)

Lemma cloud_ref_write h l x :
  cloud_ref h l →
  cloud_ref (<[l := <["settingsSync" := x]> (default ∅ (h !! l))]> h) l.
Proof.
  unfold cloud_ref. intros Hc. destruct (decide (l = Settings)) as [->|Hne].
  - rewrite lookup_insert_eq. simpl. by rewrite get_prop_insert_ne.
  - by rewrite lookup_insert_ne.
Qed.

Lemma cloud_ref_unique h l l' : cloud_ref h l → cloud_ref h l' → l = l'.
Proof. unfold cloud_ref. congruence. Qed.

Lemma live_settingsSync_cloud_ref s l :
  cloud_ref (heap s) l →
  live_settingsSync s = Some (get_prop (default ∅ (heap s !! l)) "settingsSync").
Proof. unfold cloud_ref, live_settingsSync. simpl. by intros ->. Qed.

Lemma live_truthy_cloud_ref s v :
  live_settingsSync s = Some v → truthy v = true →
  ∃ l, cloud_ref (heap s) l ∧
       get_prop (default ∅ (heap s !! l)) "settingsSync" = v.
Proof.
  unfold live_settingsSync, cloud_ref. simpl.
  destruct (get_prop (default ∅ (heap s !! Settings)) "cloud") as [| |b|n|str|l];
    simpl; intros Hv Ht; try discriminate Hv;
    injection Hv as <-; try discriminate Ht.
  by exists l.
Qed.

Lemma assign_settingsSync_cloud_ref x s l :
  cloud_ref (heap s) l →
  assign_settingsSync x s
  = Some (set_heap (<[l := <["settingsSync" := x]> (default ∅ (heap s !! l))]> (heap s)) s).
Proof. unfold cloud_ref, assign_settingsSync. simpl. by intros ->. Qed.

Lemma live_settingsSync_written (s : state) h l x :
  cloud_ref h l →
  live_settingsSync
    (set_heap (<[l := <["settingsSync" := x]> (default ∅ (h !! l))]> h) s) = Some x.
Proof.
  intros Hc. rewrite (live_settingsSync_cloud_ref _ l) by by apply cloud_ref_write.
  simpl. rewrite lookup_insert_eq. simpl. by rewrite get_prop_insert_eq.
Qed.

(** The two ways [disableHeavyFeaturesTemporarily] can go. *)
Lemma disableHeavyFeaturesTemporarily_cases s :
  disableHeavyFeaturesTemporarily s = s ∨
  ∃ l, cloud_ref (heap s) l ∧
       truthy (get_prop (default ∅ (heap s !! l)) "settingsSync") = true ∧
       disableHeavyFeaturesTemporarily s
       = snd (setTimeout ReenableCloudSync 5000
                (set_heap
                   (<[l := <["settingsSync" := JBool false]> (default ∅ (heap s !! l))]> (heap s))
                   (add_log InfoDisablingCloudSync s))).
Proof.
  unfold disableHeavyFeaturesTemporarily.
  destruct (get_prop (default ∅ (heap s !! Settings)) "cloud") as [| |b|n|str|l] eqn:Hc;
    simpl; try (by left).
  destruct (truthy (get_prop (default ∅ (heap s !! l)) "settingsSync")) eqn:Ht;
    [|by left].
  right. by exists l.
Qed.

(** *** Timer handles *)

Lemma ids_filter_NoDup (P : timer → Prop) `{!∀ x, Decision (P x)} (ts : list timer) :
  NoDup (timer_id <$> ts) → NoDup (timer_id <$> filter P ts).
Proof.
  induction ts as [|tm ts IH]; [done|]. rewrite fmap_cons, NoDup_cons.
  intros [Hnotin Hnd]. rewrite filter_cons. destruct (decide (P tm)); [|by apply IH].
  rewrite fmap_cons, NoDup_cons. split; [|by apply IH].
  intros (x & Hid & Hx)%list_elem_of_fmap. apply list_elem_of_filter in Hx as [_ Hx].
  apply Hnotin, list_elem_of_fmap. by exists x.
Qed.

Lemma ids_distinct (ts : list timer) tm tm' :
  NoDup (timer_id <$> ts) → tm ∈ ts → tm' ∈ ts →
  timer_id tm = timer_id tm' → tm = tm'.
Proof.
  induction ts as [|x ts IH]; [by intros _ ?%elem_of_nil|].
  rewrite fmap_cons, NoDup_cons. intros [Hnotin Hnd] Htm Htm' Hid.
  apply elem_of_cons in Htm as [->|Htm]; apply elem_of_cons in Htm' as [->|Htm'].
  - done.
  - exfalso. apply Hnotin, list_elem_of_fmap. by exists tm'.
  - exfalso. apply Hnotin, list_elem_of_fmap. by exists tm.
  - by apply IH.
Qed.

Lemma fresh_handles_filter (P : timer → Prop) `{!∀ x, Decision (P x)} s :
  fresh_handles s → fresh_handles (set_timers (filter P (timers s)) s).
Proof.
  intros (Hnd & Hlt & Hinit). repeat split; simpl.
  - by apply ids_filter_NoDup.
  - apply Forall_forall. intros x [_ Hx]%list_elem_of_filter.
    by apply (proj1 (Forall_forall _ _) Hlt).
  - done.
Qed.

Lemma fresh_handles_setTimeout a delay s :
  fresh_handles s → fresh_handles (snd (setTimeout a delay s)).
Proof.
  intros (Hnd & Hlt & Hinit). repeat split; simpl.
  - rewrite fmap_app. apply NoDup_app. split; [done|]. split; [|apply NoDup_singleton].
    intros id (x & -> & Hx)%list_elem_of_fmap Hin. simpl in Hin.
    apply list_elem_of_singleton in Hin.
    pose proof (proj1 (Forall_forall _ _) Hlt x Hx) as Hx'. simpl in Hx'. lia.
  - apply Forall_app. split.
    + eapply Forall_impl; [exact Hlt|]. simpl. intros x Hx. lia.
    + apply Forall_singleton. simpl. lia.
  - intros id Hid. specialize (Hinit id Hid). lia.
Qed.

(** *** What a timer body changes *)

Lemma run_action_frame a s :
  timers (run_action a s) = timers s ∧
  next_timer (run_action a s) = next_timer s ∧
  initTimeout (run_action a s) = initTimeout s ∧
  now (run_action a s) = now s.
Proof.
  destruct a; simpl; [|done]. unfold assign_settingsSync.
  destruct (read_prop (heap s) (JRef Settings) "cloud") as [cloud|]; [|done].
  by destruct (write_prop (heap s) cloud "settingsSync" (JBool true)).
Qed.

Lemma run_action_cloud_ref a s l :
  cloud_ref (heap s) l → cloud_ref (heap (run_action a s)) l.
Proof.
  intros Hc. destruct a; simpl; [|done].
  rewrite (assign_settingsSync_cloud_ref _ _ l Hc). simpl. by apply cloud_ref_write.
Qed.

Lemma run_action_sync a s l :
  cloud_ref (heap s) l →
  a = ReenableCloudSync ∨ live_settingsSync s = Some (JBool true) →
  live_settingsSync (run_action a s) = Some (JBool true).
Proof.
  intros Hc Hor. destruct a; simpl.
  - rewrite (assign_settingsSync_cloud_ref _ _ l Hc).
    by apply (live_settingsSync_written (add_log InfoReenabledCloudSync s)).
  - by destruct Hor.
Qed.

Lemma fire_frame tm s :
  timers (fire tm s) = filter (fun x => timer_id x ≠ timer_id tm) (timers s) ∧
  next_timer (fire tm s) = next_timer s ∧
  initTimeout (fire tm s) = initTimeout s ∧
  now (fire tm s) = Z.max (now s) (due tm).
Proof. unfold fire. by destruct (run_action_frame (action tm)
  (set_now (Z.max (now s) (due tm))
     (set_timers (filter (fun x => timer_id x ≠ timer_id tm) (timers s)) s)))
  as (-> & -> & -> & ->). Qed.

Lemma fire_cloud_ref tm s l : cloud_ref (heap s) l → cloud_ref (heap (fire tm s)) l.
Proof. intros Hc. unfold fire. by apply run_action_cloud_ref. Qed.

Lemma fire_fresh_handles tm s : fresh_handles s → fresh_handles (fire tm s).
Proof.
  intros Hf. pose proof (fresh_handles_filter (fun x => timer_id x ≠ timer_id tm) s Hf)
    as (Hnd & Hlt & Hinit).
  destruct (fire_frame tm s) as (Ht & Hn & Hi & _).
  unfold fresh_handles. rewrite Ht, Hn, Hi. done.
Qed.

(** *** Which timer fires next *)

Lemma next_due_None ts : next_due ts = None → ts = [].
Proof.
  destruct ts as [|tm ts]; [done|]. simpl.
  destruct (next_due ts) as [tm'|]; [|done]. by destruct (due tm' <? due tm).
Qed.

Lemma next_due_Some ts tm :
  next_due ts = Some tm → tm ∈ ts ∧ Forall (fun x => due tm ≤ due x) ts.
Proof.
  revert tm. induction ts as [|x ts IH]; [done|]. intros tm. simpl.
  destruct (next_due ts) as [tm'|] eqn:Hnext.
  - destruct (IH tm' eq_refl) as [Hin Hall].
    destruct (due tm' <? due x) eqn:Hlt; intros [= <-].
    + split; [by right|]. constructor; [lia | done].
    + split; [by left|]. constructor; [lia|].
      eapply Forall_impl; [exact Hall|]. simpl. intros y Hy. lia.
  - intros [= <-]. apply next_due_None in Hnext as ->.
    split; [by left|]. constructor; [lia | done].
Qed.

(** *** Letting time pass *)

Lemma live_settingsSync_heap s s' :
  heap s = heap s' → live_settingsSync s = live_settingsSync s'.
Proof. unfold live_settingsSync. by intros ->. Qed.

(** Timers that fire before [r] is due leave [r] pending. *)
Lemma run_timers_awaiting r t rounds :
  ∀ s, awaiting r s → t < due r → awaiting r (run_timers rounds t s).
Proof.
  induction rounds as [|rounds IH]; intros s Hs Ht; simpl; [done|].
  destruct (next_due (timers s)) as [tm|] eqn:Hnext; [|done].
  destruct (due tm <=? t) eqn:Hdue; [|done].
  apply IH; [|done]. destruct Hs as ([l Hl] & Hf & Hr & Hi).
  apply next_due_Some in Hnext as [Htm _].
  destruct (fire_frame tm s) as (Htimers & _ & Hinit & _).
  split; [exists l; by apply fire_cloud_ref|].
  split; [by apply fire_fresh_handles|].
  split; [|by rewrite Hinit].
  rewrite Htimers. apply list_elem_of_filter. split; [|done].
  intros Hid. destruct Hf as (Hnd & _).
  assert (r = tm) as -> by by apply (ids_distinct (timers s)). lia.
Qed.

Lemma run_timers_now rounds t :
  ∀ s, now (run_timers rounds t s) ≤ Z.max (now s) t.
Proof.
  induction rounds as [|rounds IH]; intros s; simpl; [lia|].
  destruct (next_due (timers s)) as [tm|]; [|lia].
  destruct (due tm <=? t) eqn:Hdue; [|lia].
  specialize (IH (fire tm s)). destruct (fire_frame tm s) as (_ & _ & _ & Hnow). lia.
Qed.

(** Once the clock has reached the instant [r] is due, [r] has run and
    nothing that ran after it has switched the flag off again. *)
Lemma run_timers_restores r t rounds :
  ∀ s l, cloud_ref (heap s) l → fresh_handles s →
    (length (timers s) ≤ rounds)%nat →
    (r ∈ timers s ∧ action r = ReenableCloudSync ∧ due r ≤ t) ∨
    live_settingsSync s = Some (JBool true) →
    live_settingsSync (run_timers rounds t s) = Some (JBool true).
Proof.
  induction rounds as [|rounds IH]; intros s l Hl Hf Hlen Hor; simpl.
  - destruct Hor as [(Hr & _) | Hlive]; [|done].
    destruct (timers s); [by apply elem_of_nil in Hr | simpl in Hlen; lia].
  - destruct (next_due (timers s)) as [tm|] eqn:Hnext.
    + apply next_due_Some in Hnext as [Htm Hmin].
      destruct (due tm <=? t) eqn:Hdue.
      * destruct (fire_frame tm s) as (Htimers & _ & _ & _).
        apply (IH (fire tm s) l).
        -- by apply fire_cloud_ref.
        -- by apply fire_fresh_handles.
        -- rewrite Htimers.
           assert (length (filter (fun x => timer_id x ≠ timer_id tm) (timers s))
                   < length (timers s))%nat; [|lia].
           apply (length_filter_lt _ _ tm); [done|]. by intros Hne.
        -- destruct Hor as [(Hr & Ha & Hd) | Hlive].
           ++ destruct (decide (timer_id r = timer_id tm)) as [Hid|Hid].
              ** right. destruct Hf as (Hnd & _).
                 assert (r = tm) as <- by by apply (ids_distinct (timers s)).
                 unfold fire. apply (run_action_sync _ _ l); [done | by left].
              ** left. rewrite Htimers. split; [|done].
                 by apply list_elem_of_filter.
           ++ right. unfold fire. apply (run_action_sync _ _ l); [done | by right].
      * destruct Hor as [(Hr & _ & Hd) | Hlive]; [|done].
        pose proof (proj1 (Forall_forall _ _) Hmin r Hr) as Hle. simpl in Hle. lia.
    + destruct Hor as [(Hr & _) | Hlive]; [|done].
      apply next_due_None in Hnext. rewrite Hnext in Hr. by apply elem_of_nil in Hr.
Qed.

(** *** What the host may do in between *)

Lemma disableHeavyFeaturesTemporarily_enabled s l :
  cloud_ref (heap s) l →
  truthy (get_prop (default ∅ (heap s !! l)) "settingsSync") = true →
  disableHeavyFeaturesTemporarily s
  = snd (setTimeout ReenableCloudSync 5000
           (set_heap
              (<[l := <["settingsSync" := JBool false]> (default ∅ (heap s !! l))]> (heap s))
              (add_log InfoDisablingCloudSync s))).
Proof.
  intros Hl Ht. unfold disableHeavyFeaturesTemporarily.
  unfold cloud_ref in Hl. rewrite Hl. simpl. by rewrite Ht.
Qed.

Lemma host_run_awaiting r s st :
  awaiting r s → 0 ≤ waited st → now s + waited st < due r →
  awaiting r (host_run s st) ∧ now (host_run s st) ≤ now s + waited st.
Proof.
  intros ([l Hl] & Hf & Hr & Hi) Hpos Hlt. destruct st as [| |v|dt]; simpl in *.
  - destruct (disableHeavyFeaturesTemporarily_cases s) as [-> | (l' & Hl' & _ & ->)].
    { split; [|lia]. split; [by exists l|done]. }
    split; [|simpl; lia]. split; [|split; [|split]].
    + exists l'. simpl. by apply cloud_ref_write.
    + by apply fresh_handles_setTimeout.
    + simpl. apply elem_of_app. by left.
    + done.
  - split; [|unfold optimizePluginInitialization; simpl;
             destruct (initTimeout s); simpl; lia].
    assert (timer_id r < next_timer s)%positive as Hfresh.
    { destruct Hf as (_ & Hall & _). by apply (proj1 (Forall_forall _ _) Hall r). }
    unfold optimizePluginInitialization.
    destruct (initTimeout s) as [id|] eqn:Hinit; simpl.
    + split; [by exists l|]. split; [|split].
      * pose proof (fresh_handles_filter (fun tm => timer_id tm ≠ id) s Hf) as Hf'.
        pose proof (fresh_handles_setTimeout PluginInitLog 100 _ Hf')
          as (Hnd & Hall & _).
        repeat split; simpl in *; [done | done |]. intros ? [= <-]. lia.
      * apply elem_of_app. left. apply list_elem_of_filter. split; [|done].
        intros Hid. apply Hi. by rewrite Hid.
      * intros [= Heq]. lia.
    + split; [by exists l|]. split; [|split].
      * pose proof (fresh_handles_setTimeout PluginInitLog 100 _ Hf)
          as (Hnd & Hall & _).
        repeat split; simpl in *; [done | done |]. intros ? [= <-]. lia.
      * apply elem_of_app. by left.
      * intros [= Heq]. lia.
  - rewrite (assign_settingsSync_cloud_ref _ _ l Hl). split; [|simpl; lia].
    split; [|done]. exists l. simpl. by apply cloud_ref_write.
  - unfold advance.
    pose proof (run_timers_awaiting r (now s + dt) (length (timers s)) s
                  ltac:(split; [by exists l|done]) Hlt) as (Hl' & Hf' & Hr' & Hi').
    pose proof (run_timers_now (length (timers s)) (now s + dt) s) as Hnow.
    split; [done | simpl; lia].
Qed.

Lemma steps_awaiting r steps :
  ∀ s, awaiting r s →
    Forall (fun st => 0 ≤ waited st) steps →
    now s + total_wait steps < due r →
    awaiting r (fold_left host_run steps s).
Proof.
  induction steps as [|st steps IH]; intros s Hs Hpos Hlt; simpl; [done|].
  apply Forall_cons in Hpos as [Hst Hpos]. simpl in Hlt.
  assert (0 ≤ total_wait steps) as Hrest.
  { clear -Hpos. induction Hpos; simpl; lia. }
  destruct (host_run_awaiting r s st Hs Hst ltac:(lia)) as [Hs' Hnow].
  apply IH; [done | done | lia].
Qed.

(** *** The claims about the optimizer *)

(** C8: where the live [Settings.cloud.settingsSync] is truthy,
    [disableHeavyFeaturesTemporarily] leaves it [false], writing through
    the [cloud] object its copy shares with [Settings], and schedules the
    restore for exactly 5000 ms later; whatever calls of the exported
    functions, host writes of the flag and waits fill the time before
    that instant, the flag reads [true] once the clock has reached it.
    The restore looks at nothing but the clock. *)
Theorem cloud_sync_disabled_then_restored
    (s : state) (v : jsval) (steps : list host_step) :
  fresh_handles s →
  live_settingsSync s = Some v →
  truthy v = true →
  Forall (fun st => 0 ≤ waited st) steps →
  total_wait steps < 5000 →
  live_settingsSync (disableHeavyFeaturesTemporarily s) = Some (JBool false) ∧
  {| timer_id := next_timer s; due := now s + 5000; action := ReenableCloudSync |}
    ∈ timers (disableHeavyFeaturesTemporarily s) ∧
  live_settingsSync
    (advance (now s + 5000)
       (fold_left host_run steps (disableHeavyFeaturesTemporarily s)))
  = Some (JBool true).
Proof.
  intros Hf Hlive Ht Hpos Hwait.
  destruct (live_truthy_cloud_ref s v Hlive Ht) as (l & Hl & Hv).
  rewrite (disableHeavyFeaturesTemporarily_enabled s l Hl) by by rewrite Hv.
  set (r := {| timer_id := next_timer s; due := now s + 5000;
               action := ReenableCloudSync |}).
  set (s1 := snd (setTimeout ReenableCloudSync 5000 _)).
  assert (awaiting r s1) as Hs1.
  { split; [|split; [|split]].
    - exists l. simpl. by apply cloud_ref_write.
    - by apply fresh_handles_setTimeout.
    - simpl. apply elem_of_app. right. by apply list_elem_of_singleton.
    - simpl. destruct Hf as (_ & _ & Hinit). intros Heq.
      specialize (Hinit _ Heq). lia. }
  split; [|split].
  - by apply (live_settingsSync_written (snd (setTimeout ReenableCloudSync 5000
                (add_log InfoDisablingCloudSync s)))).
  - by destruct Hs1 as (_ & _ & Hr & _).
  - pose proof (steps_awaiting r steps s1 Hs1 Hpos ltac:(simpl; lia))
      as ([l' Hl'] & Hf' & Hr' & _).
    unfold advance. rewrite (live_settingsSync_heap _ (run_timers
      (length (timers (fold_left host_run steps s1))) (now s + 5000)
      (fold_left host_run steps s1))) by done.
    apply (run_timers_restores r _ _ _ l'); [done | done | done |].
    left. split; [done|]. split; [done | simpl; lia].
Qed.

Lemma cloud_sync_disabled_then_restored_witness :
  live_settingsSync (disableHeavyFeaturesTemporarily Scenarios.fresh_start)
  = Some (JBool false) ∧
  {| timer_id := 1; due := 5000; action := ReenableCloudSync |}
    ∈ timers (disableHeavyFeaturesTemporarily Scenarios.fresh_start) ∧
  live_settingsSync
    (advance 5000
       (fold_left host_run Scenarios.busy_startup
          (disableHeavyFeaturesTemporarily Scenarios.fresh_start)))
  = Some (JBool true).
Proof.
  apply (cloud_sync_disabled_then_restored
           Scenarios.fresh_start (JBool true) Scenarios.busy_startup).
  - repeat split; simpl; [constructor | constructor | discriminate].
  - reflexivity.
  - reflexivity.
  - repeat constructor; simpl; lia.
  - simpl. lia.
Defined.

(** C9: the patched [setTimeout] hands the original the delay 1 in
    place of the caller's exactly when the delay is 0 and the source text
    of the callback contains [Reflect.deleteProperty]; in every other
    case, and for the callback and the extra arguments in all cases, the
    original receives what the caller passed. *)
Theorem optimizeWebpackLoading_spec
    (cb : callback) (delay : Z) (args : list jsval) :
  let hit := delay = 0 ∧ ∃ pre post, cb_source cb = pre +:+ WEBPACK_PATTERN +:+ post in
  (hit → forwarded cb delay args = (cb, 1, args)) ∧
  (¬ hit → forwarded cb delay args = (cb, delay, args)) ∧
  (forwarded cb delay args ≠ (cb, delay, args) ↔ hit) ∧
  (∀ (handle : Type) (originalSetTimeout : callback → Z → list jsval → handle),
     optimizeWebpackLoading originalSetTimeout cb delay args
     = let '(c, d, a) := forwarded cb delay args in originalSetTimeout c d a).
Proof.
  intros hit.
  assert ((delay =? 0) && includes WEBPACK_PATTERN (cb_source cb) = true ↔ hit) as Hhit.
  { unfold hit. rewrite andb_true_iff, Z.eqb_eq, includes_spec. done. }
  unfold forwarded, optimizeWebpackLoading.
  destruct ((delay =? 0) && includes WEBPACK_PATTERN (cb_source cb)) eqn:Hb.
  - assert hit as Hh by by apply Hhit. split_and!.
    + done.
    + done.
    + split; [done|]. intros _ Heq. destruct Hh as [Hd _]. rewrite Hd in Heq. congruence.
    + done.
  - assert (¬ hit) as Hh by (intros Hh; apply Hhit in Hh; done). split_and!.
    + done.
    + done.
    + split; [done|]. intros Hh'. by destruct Hh.
    + done.
Qed.

Lemma optimizeWebpackLoading_spec_witness :
  forwarded Scenarios.webpack_callback 0 [JNum 7]
  = (Scenarios.webpack_callback, 1, [JNum 7]).
Proof.
  apply (proj1 (optimizeWebpackLoading_spec Scenarios.webpack_callback 0 [JNum 7])).
  split; [reflexivity|]. by exists "()=>{", "(e,t)}".
Defined.

End PerformancePatchesFacts.

(** ** The media guard *)

Module VoiceCrashPreventerFacts.

Import VoiceCrashPreventer.

Section Guard.

Context {W E V This : Type}.
Variable originalSetSinkId : This → string → original W E V.
Variable originalGetDisplayMedia : This → option obj → original W E V.
Variable originalGetUserMedia : This → option obj → original W E V.

Implicit Types (m : machine W E This) (this : This) (error : E).

(** Unfolds a wrapper down to the calls of its original. *)
Ltac unfold_guard :=
  unfold setSinkId, getDisplayMedia, getUserMedia,
    try_catch, bind, call, ret, throw, emit, read_store; simpl.

Lemma calls_of_app f (tr tr' : list (event E This)) :
  calls_of f (tr ++ tr') = calls_of f tr ++ calls_of f tr'.
Proof. unfold calls_of. apply omap_app. Qed.

Lemma calls_of_called f this args :
  calls_of f [Called (E := E) f this args] = [args].
Proof. by destruct f. Qed.

Lemma calls_of_console_warn f g error :
  calls_of f [ConsoleWarn (This := This) g error] = [].
Proof. done. Qed.

(** Closes a goal about the calls a trace records. *)
Ltac solve_calls :=
  rewrite ?calls_of_app; simpl; rewrite ?app_nil_r, <- ?app_assoc; done.

(** *** The claims about the guard *)

(** C4: with [preventCrash] off, an exception thrown by the original
    [setSinkId], [getDisplayMedia] or [getUserMedia] leaves its wrapper as
    the very same exception. *)
Theorem guards_rethrow_unchanged m this (sinkId : string) (constraints : option obj) error :
  preventCrash (store m) = false →
  (fst (originalSetSinkId this sinkId (world m)) = Throw error →
   fst (setSinkId originalSetSinkId this sinkId m) = Throw error) ∧
  (fst (originalGetDisplayMedia this constraints (world m)) = Throw error →
   fst (getDisplayMedia originalGetDisplayMedia this constraints m) = Throw error) ∧
  (fst (originalGetUserMedia this constraints (world m)) = Throw error →
   fst (getUserMedia originalGetUserMedia this constraints m) = Throw error).
Proof.
  intros Hpc. split_and!; unfold_guard.
  - destruct (originalSetSinkId this sinkId (world m)) as [[v|e] w]; simpl;
      intros [= ->]. by rewrite Hpc.
  - destruct (originalGetDisplayMedia this constraints (world m)) as [[v|e] w]; simpl;
      intros [= ->]. by rewrite Hpc.
  - destruct (originalGetUserMedia this constraints (world m)) as [[v|e] w]; simpl;
      intros [= ->]. by rewrite Hpc.
Qed.

(** C5: with [preventCrash] on and [constraints.video] truthy, when the
    original [getUserMedia] throws, the wrapper calls it exactly once
    more, with [{ audio: constraints.audio }] and no [video] property,
    and ends the way that second call ends. *)
Theorem getUserMedia_retries_audio_only m this (o : obj) error (w : W) :
  preventCrash (store m) = true →
  truthy (get_prop o "video") = true →
  originalGetUserMedia this (Some o) (world m) = (Throw error, w) →
  let reduced : obj := {[ "audio" := get_prop o "audio" ]} in
  let second := originalGetUserMedia this (Some reduced) w in
  let result := getUserMedia originalGetUserMedia this (Some o) m in
  reduced !! "video" = None ∧
  fst result = match fst second with
               | Normal v => Normal (FromOriginal v)
               | Throw e => Throw e
               end ∧
  world (snd result) = snd second ∧
  calls_of GetUserMedia (trace (snd result))
  = calls_of GetUserMedia (trace m)
    ++ [ConstraintsArg (Some o); ConstraintsArg (Some reduced)].
Proof.
  intros Hpc Hvideo Hfirst reduced second result.
  split; [by apply lookup_singleton_ne|].
  unfold result, second. unfold_guard. rewrite Hfirst. simpl.
  rewrite Hpc, Hvideo. simpl.
  destruct (logEvents (store m)); simpl;
    change (audio_only (Some o)) with reduced;
    destruct (originalGetUserMedia this (Some reduced) w) as [[v|e] w']; simpl;
    (split; [done|]; split; [done|]); solve_calls.
Qed.

(** C6: with [preventCrash] on, when the original [setSinkId] throws,
    the wrapper returns normally, with a promise the guard resolved
    itself, and does not call the original again. *)
Theorem setSinkId_resolves_on_throw m this (sinkId : string) error (w : W) :
  preventCrash (store m) = true →
  originalSetSinkId this sinkId (world m) = (Throw error, w) →
  fst (setSinkId originalSetSinkId this sinkId m) = Normal (ResolvedPromise NoValue) ∧
  calls_of SetSinkId (trace (snd (setSinkId originalSetSinkId this sinkId m)))
  = calls_of SetSinkId (trace m) ++ [SinkArg sinkId].
Proof.
  intros Hpc Hfirst. unfold_guard. rewrite Hfirst. simpl. rewrite Hpc.
  destruct (logEvents (store m)); simpl; (split; [done|]); solve_calls.
Qed.

(** C7, as the code has it: the wrappers of [setSinkId] and
    [getDisplayMedia] call their original exactly once; the wrapper of
    [getUserMedia] calls its original once and, only when that call threw
    with [preventCrash] on and [constraints.video] truthy, once more with
    the reduced constraints, so never more than twice. *)
Theorem guard_calls_of_original m this (sinkId : string) (constraints : option obj) :
  calls_of SetSinkId (trace (snd (setSinkId originalSetSinkId this sinkId m)))
  = calls_of SetSinkId (trace m) ++ [SinkArg sinkId] ∧
  calls_of GetDisplayMedia
    (trace (snd (getDisplayMedia originalGetDisplayMedia this constraints m)))
  = calls_of GetDisplayMedia (trace m) ++ [ConstraintsArg constraints] ∧
  calls_of GetUserMedia
    (trace (snd (getUserMedia originalGetUserMedia this constraints m)))
  = calls_of GetUserMedia (trace m)
    ++ ConstraintsArg constraints
       :: match fst (originalGetUserMedia this constraints (world m)) with
          | Throw _ =>
              if preventCrash (store m) && truthy (video_of constraints)
              then [ConstraintsArg (Some (audio_only constraints))]
              else []
          | Normal _ => []
          end.
Proof.
  split_and!; unfold_guard.
  - destruct (originalSetSinkId this sinkId (world m)) as [[v|e] w]; simpl;
      [solve_calls|].
    destruct (preventCrash (store m)); simpl; [|solve_calls].
    destruct (logEvents (store m)); simpl; solve_calls.
  - destruct (originalGetDisplayMedia this constraints (world m)) as [[v|e] w];
      simpl; [solve_calls|].
    destruct (preventCrash (store m)); simpl; solve_calls.
  - destruct (originalGetUserMedia this constraints (world m)) as [[v|e] w];
      simpl; [solve_calls|].
    destruct (preventCrash (store m) && truthy (video_of constraints)); simpl;
      [|solve_calls].
    destruct (logEvents (store m)); simpl;
      destruct (originalGetUserMedia this (Some (audio_only constraints)) w)
        as [[v|e'] w']; simpl; solve_calls.
Qed.

(** C10: when [constraints.video] is falsy (an audio-only request, or
    no constraints at all), an exception of the original [getUserMedia]
    leaves the wrapper as the very same exception even with
    [preventCrash] on, after that single call. *)
Theorem getUserMedia_without_video_rethrows m this (constraints : option obj) error :
  preventCrash (store m) = true →
  truthy (video_of constraints) = false →
  fst (originalGetUserMedia this constraints (world m)) = Throw error →
  fst (getUserMedia originalGetUserMedia this constraints m) = Throw error ∧
  calls_of GetUserMedia
    (trace (snd (getUserMedia originalGetUserMedia this constraints m)))
  = calls_of GetUserMedia (trace m) ++ [ConstraintsArg constraints].
Proof.
  intros Hpc Hvideo. unfold_guard.
  destruct (originalGetUserMedia this constraints (world m)) as [[v|e] w]; simpl;
    intros [= ->]. rewrite Hpc, Hvideo. simpl. split; [done|]. solve_calls.
Qed.

End Guard.

(** *** The claims at concrete calls *)

Import Scenarios.

Lemma guards_rethrow_unchanged_witness :
  fst (setSinkId broken_sink () "speaker" unguarded) = Throw "AbortError" ∧
  fst (getDisplayMedia broken_capture () None unguarded) = Throw "InvalidStateError" ∧
  fst (getUserMedia broken_camera () (Some camera_call) unguarded)
  = Throw "NotReadableError".
Proof.
  split_and!.
  - apply (guards_rethrow_unchanged broken_sink broken_capture broken_camera
             unguarded () "speaker" None "AbortError"); reflexivity.
  - apply (guards_rethrow_unchanged broken_sink broken_capture broken_camera
             unguarded () "speaker" None "InvalidStateError"); reflexivity.
  - apply (guards_rethrow_unchanged broken_sink broken_capture broken_camera
             unguarded () "speaker" (Some camera_call) "NotReadableError"); reflexivity.
Defined.

Lemma getUserMedia_retries_audio_only_witness :
  fst (getUserMedia broken_camera () (Some camera_call) guarded)
  = Normal (FromOriginal 1%nat) ∧
  calls_of GetUserMedia
    (trace (snd (getUserMedia broken_camera () (Some camera_call) guarded)))
  = [ConstraintsArg (Some camera_call); ConstraintsArg (Some voice_call)].
Proof.
  destruct (getUserMedia_retries_audio_only broken_camera guarded () camera_call
              "NotReadableError" 1%nat eq_refl eq_refl eq_refl)
    as (_ & Hresult & _ & Hcalls).
  split; [exact Hresult | exact Hcalls].
Defined.

Lemma setSinkId_resolves_on_throw_witness :
  fst (setSinkId broken_sink () "speaker" guarded) = Normal (ResolvedPromise NoValue) ∧
  calls_of SetSinkId (trace (snd (setSinkId broken_sink () "speaker" guarded)))
  = [SinkArg "speaker"].
Proof.
  apply (setSinkId_resolves_on_throw broken_sink guarded () "speaker" "AbortError" 1%nat);
    reflexivity.
Defined.

Lemma getUserMedia_without_video_rethrows_witness :
  fst (getUserMedia dead_microphone () (Some voice_call) guarded)
  = Throw "NotAllowedError" ∧
  calls_of GetUserMedia
    (trace (snd (getUserMedia dead_microphone () (Some voice_call) guarded)))
  = [ConstraintsArg (Some voice_call)].
Proof.
  apply (getUserMedia_without_video_rethrows dead_microphone guarded ()
           (Some voice_call) "NotAllowedError"); reflexivity.
Defined.

(** C7 as stated fails: a video request to a camera that throws makes
    the guard call the original [getUserMedia] a second time. *)
Lemma getUserMedia_calls_original_twice :
  ¬ (length (calls_of GetUserMedia
               (trace (snd (getUserMedia broken_camera () (Some camera_call) guarded))))
     ≤ 1)%nat.
Proof. vm_compute. lia. Qed.

End VoiceCrashPreventerFacts.

(** ** The waiter: how it ends and what it logs *)

Module WaiterOutcomes.

Import MenuFix MenuFixFacts.

Lemma attemptLoad_rejected_iff reg reason :
  ∀ n attempt, (MAX_RETRIES - attempt = n)%nat →
    outcome (attemptLoad reg attempt) = Rejected reason ↔
    reason = "Menu components failed to load" ∧
    ∀ j, (attempt ≤ j ≤ Nat.max attempt MAX_RETRIES)%nat → refuted reg j = true.
Proof.
  intros n. induction n as [|n IH]; intros attempt Hn;
    rewrite attemptLoad_unfold;
    destruct (critical reg attempt) as [|after component] eqn:Hc; simpl.
  - split; [done|]. intros [_ Hall]. specialize (Hall attempt ltac:(lia)).
    unfold refuted in Hall. by rewrite Hc in Hall.
  - destruct (truthy component) eqn:Ht; simpl.
    + split; [done|]. intros [_ Hall]. specialize (Hall attempt ltac:(lia)).
      unfold refuted in Hall. by rewrite Hc, Ht in Hall.
    + case_decide; [lia|]. simpl. split.
      * intros [= <-]. split; [done|]. intros j Hj.
        assert (j = attempt) as -> by lia. unfold refuted. by rewrite Hc, Ht.
      * by intros [-> _].
  - split; [done|]. intros [_ Hall]. specialize (Hall attempt ltac:(lia)).
    unfold refuted in Hall. by rewrite Hc in Hall.
  - destruct (truthy component) eqn:Ht; simpl.
    + split; [done|]. intros [_ Hall]. specialize (Hall attempt ltac:(lia)).
      unfold refuted in Hall. by rewrite Hc, Ht in Hall.
    + case_decide; [|lia]. simpl. rewrite (IH (attempt + 1)%nat) by lia. split.
      * intros [-> Hall]. split; [done|]. intros j Hj.
        destruct (decide (j = attempt)) as [->|Hne].
        -- unfold refuted. by rewrite Hc, Ht.
        -- apply Hall. lia.
      * intros [-> Hall]. split; [done|]. intros j Hj. apply Hall. lia.
Qed.

Lemma attemptLoad_pending_iff reg :
  ∀ n attempt, (MAX_RETRIES - attempt = n)%nat →
    outcome (attemptLoad reg attempt) = Pending ↔
    ∃ k, (attempt ≤ k ≤ Nat.max attempt MAX_RETRIES)%nat ∧
         (∀ j, (attempt ≤ j < k)%nat → refuted reg j = true) ∧
         critical reg k = NoCallback.
Proof.
  intros n. induction n as [|n IH]; intros attempt Hn;
    rewrite attemptLoad_unfold;
    destruct (critical reg attempt) as [|after component] eqn:Hc; simpl.
  - split; [|done]. intros _. exists attempt. split; [lia|]. split; [intros; lia | done].
  - destruct (truthy component) eqn:Ht; simpl.
    + split; [done|]. intros (k & Hk & _ & Hno).
      assert (k = attempt) as -> by lia. congruence.
    + case_decide; [lia|]. simpl. split; [done|]. intros (k & Hk & _ & Hno).
      assert (k = attempt) as -> by lia. congruence.
  - split; [|done]. intros _. exists attempt. split; [lia|]. split; [intros; lia | done].
  - destruct (truthy component) eqn:Ht; simpl.
    + split; [done|]. intros (k & Hk & Hpre & Hno).
      destruct (decide (k = attempt)) as [->|Hne]; [congruence|].
      specialize (Hpre attempt ltac:(lia)). unfold refuted in Hpre.
      by rewrite Hc, Ht in Hpre.
    + case_decide; [|lia]. simpl. rewrite (IH (attempt + 1)%nat) by lia. split.
      * intros (k & Hk & Hpre & Hno). exists k. split; [lia|]. split; [|done].
        intros j Hj. destruct (decide (j = attempt)) as [->|Hne].
        -- unfold refuted. by rewrite Hc, Ht.
        -- apply Hpre. lia.
      * intros (k & Hk & Hpre & Hno).
        destruct (decide (k = attempt)) as [->|Hne]; [congruence|].
        exists k. split; [lia|]. split; [|done]. intros j Hj. apply Hpre. lia.
Qed.

(** The loop stops at the first attempt whose verification does not
    call back with a falsy component, or at the last one. *)
Lemma attemptLoad_stops_at reg k :
  ∀ n attempt, (k - attempt = n)%nat → (attempt ≤ k ≤ MAX_RETRIES)%nat →
    (∀ j, (attempt ≤ j < k)%nat → refuted reg j = true) →
    refuted reg k = false ∨ k = MAX_RETRIES →
    attempts (attemptLoad reg attempt) = S n.
Proof.
  intros n. induction n as [|n IH]; intros attempt Hn Hk Hpre Hlast;
    rewrite attemptLoad_unfold.
  - assert (attempt = k) as -> by lia.
    destruct (critical reg k) as [|after component] eqn:Hc; [done|].
    destruct (truthy component) eqn:Ht; [done|].
    case_decide; [|done]. destruct Hlast as [Hlast | ->]; [|lia].
    unfold refuted in Hlast. by rewrite Hc, Ht in Hlast.
  - pose proof (Hpre attempt ltac:(lia)) as Ha. unfold refuted in Ha.
    destruct (critical reg attempt) as [|after component]; [done|].
    destruct (truthy component); [done|].
    case_decide; [|lia]. simpl. f_equal. apply IH; [lia | lia | | done].
    intros j Hj. apply Hpre. lia.
Qed.

(** X1: [ensureMenuComponents] rejects exactly when all five verifications
    called back with a falsy component, and then always with the same
    reason. *)
Theorem ensureMenuComponents_rejects_iff (reg : registry) (reason : string) :
  outcome (ensureMenuComponents reg) = Rejected reason ↔
  reason = "Menu components failed to load" ∧
  ∀ j, (1 ≤ j ≤ MAX_RETRIES)%nat → refuted reg j = true.
Proof. apply (attemptLoad_rejected_iff reg reason 4 1). reflexivity. Qed.

(** X2: The promise of [ensureMenuComponents] never settles exactly when the
    loop reaches an attempt whose verification is never answered. *)
Theorem ensureMenuComponents_pending_iff (reg : registry) :
  outcome (ensureMenuComponents reg) = Pending ↔
  ∃ k, (1 ≤ k ≤ MAX_RETRIES)%nat ∧
       (∀ j, (1 ≤ j < k)%nat → refuted reg j = true) ∧
       critical reg k = NoCallback.
Proof. apply (attemptLoad_pending_iff reg 4 1). reflexivity. Qed.

(** X3: When attempt [k] is the first whose verification does not call back
    with a falsy component (or is the fifth), the loop makes exactly [k]
    attempts and schedules exactly [k - 1] retry delays of 1000 ms. *)
Theorem ensureMenuComponents_attempts (reg : registry) (k : nat) :
  (1 ≤ k ≤ MAX_RETRIES)%nat →
  (∀ j, (1 ≤ j < k)%nat → refuted reg j = true) →
  refuted reg k = false ∨ k = MAX_RETRIES →
  attempts (ensureMenuComponents reg) = k ∧
  retry_wait (ensureMenuComponents reg) = 1000 * (Z.of_nat k - 1).
Proof.
  intros Hk Hpre Hlast. unfold ensureMenuComponents.
  assert (attempts (attemptLoad reg 1) = k) as Ha.
  { rewrite (attemptLoad_stops_at reg k (k - 1) 1); [lia | done | done | done | done]. }
  split; [done|]. rewrite (attemptLoad_retry_wait reg 4 1) by reflexivity.
  rewrite Ha. reflexivity.
Qed.

Lemma ensureMenuComponents_attempts_witness :
  attempts (ensureMenuComponents Scenarios.third_time_registry) = 3%nat ∧
  retry_wait (ensureMenuComponents Scenarios.third_time_registry) = 1000 * (3 - 1).
Proof.
  apply (ensureMenuComponents_attempts Scenarios.third_time_registry 3).
  - unfold MAX_RETRIES. lia.
  - intros j Hj. assert (j = 1 ∨ j = 2)%nat as [-> | ->] by lia; reflexivity.
  - left. reflexivity.
Defined.

(** X4: What a race leaves in the log: the timeout warning exactly when no
    callback came before the deadline, the success message exactly when a
    callback brought a truthy component, be it after the warning; and the
    timer is never left armed. *)
Theorem loadPromise_log (index : nat) (a : response) :
  race_log (loadPromise index a)
  = match a with
    | NoCallback => [WarnSelectorTimedOut index]
    | CallsBack after component =>
        (if after <? QUERY_TIMEOUT then [] else [WarnSelectorTimedOut index])
        ++ (if truthy component then [InfoComponentLoaded index] else [])
    end ∧
  timeout_armed (loadPromise index a) = false.
Proof.
  destruct a as [|after component]; [done|].
  unfold loadPromise, run_race, race_schedule.
  destruct (after <? QUERY_TIMEOUT); simpl; by destruct (truthy component).
Qed.

(** *** When an attempt's races settle *)

Lemma timed_schedule_events (a : response) :
  snd <$> RaceTiming.timed_schedule a = race_schedule a.
Proof.
  destruct a as [|after component]; [done|].
  unfold RaceTiming.timed_schedule, race_schedule.
  by destruct (after <? QUERY_TIMEOUT).
Qed.

Lemma loadPromise_settles (index : nat) (a : response) :
  RaceTiming.loadPromise_settled_at index a = Some (settle_time a).
Proof.
  destruct a as [|after component]; [done|].
  unfold RaceTiming.loadPromise_settled_at, RaceTiming.timed_schedule, settle_time.
  destruct (after <? QUERY_TIMEOUT) eqn:Hlt; simpl; f_equal; lia.
Qed.

Lemma all_settled_at_latest {A} (f : nat → A → option Z) (g : nat → A → Z) (l : list A) :
  (∀ i x, f i x = Some (g i x)) →
  RaceTiming.all_settled_at (imap f l) = Some (foldr Z.max 0 (imap g l)).
Proof.
  revert f g. induction l as [|x l IH]; intros f g Hfg; [done|].
  simpl. fold (RaceTiming.all_settled_at (imap (f ∘ S) l)).
  rewrite (IH (f ∘ S) (g ∘ S)), Hfg; [done|]. intros i y. apply Hfg.
Qed.

Lemma all_settled_at_bound (bound : Z) (members : list (option Z)) (t : Z) :
  0 ≤ bound →
  Forall (fun member => ∀ u, member = Some u → u ≤ bound) members →
  RaceTiming.all_settled_at members = Some t → 0 ≤ t ≤ bound.
Proof.
  intros Hb Hall. revert t. induction Hall as [|member members Hm _ IH]; intros t.
  - intros [= <-]. lia.
  - simpl. fold (RaceTiming.all_settled_at members).
    destruct member as [u|]; [|done].
    destruct (RaceTiming.all_settled_at members) as [latest|]; [|done].
    intros [= <-]. specialize (Hm u eq_refl). specialize (IH latest eq_refl). lia.
Qed.

(** X5: Run through [race_step] in the order of their instants, the
    events of a race take its promise out of [Pending] at the earlier of
    the registry's callback and the 2000 ms timer, never later than the
    timer; so the [Promise.all] over the seven races of an attempt settles,
    whatever the registry does, between 0 and 2000 ms after the attempt
    starts, at the instant the waiter's clock counts for it. *)
Theorem races_settle_by_timeout (reg : registry) (attempt : nat) (index : nat) (a : response) :
  snd <$> RaceTiming.timed_schedule a = race_schedule a ∧
  (∃ t, RaceTiming.loadPromise_settled_at index a = Some t ∧
        t ≤ QUERY_TIMEOUT ∧
        t = match a with
            | NoCallback => QUERY_TIMEOUT
            | CallsBack after _ => Z.min after QUERY_TIMEOUT
            end) ∧
  (∃ t, RaceTiming.join_settled_at reg attempt = Some t ∧
        0 ≤ t ≤ QUERY_TIMEOUT ∧
        t = join_time reg attempt).
Proof.
  split_and!.
  - apply timed_schedule_events.
  - exists (settle_time a). split; [apply loadPromise_settles|].
    unfold settle_time. destruct a; split; (lia || done).
  - assert (RaceTiming.join_settled_at reg attempt = Some (join_time reg attempt)) as Hjoin.
    { unfold RaceTiming.join_settled_at, join_time.
      apply all_settled_at_latest. intros i sel. apply loadPromise_settles. }
    exists (join_time reg attempt). split; [done|]. split; [|done].
    apply (all_settled_at_bound QUERY_TIMEOUT _ _ ltac:(done)) in Hjoin; [done|].
    apply Forall_lookup_2. intros i member Hmember u ->.
    apply list_lookup_imap_Some in Hmember as (sel & _ & Heq).
    rewrite loadPromise_settles in Heq. injection Heq as ->.
    unfold settle_time. destruct (query reg attempt i); lia.
Qed.

End WaiterOutcomes.

(** ** The refresh, the watchdog and the safety net *)

Module MenuMonitorFacts.

Import MenuFix MenuFixFacts MenuMonitor.

Section Page.

Context {E : Type}.
Implicit Types (p : page E).

Lemma forceMenuRefresh_at_most_one p :
  (length (dispatched (forceMenuRefresh p)) ≤ 1)%nat.
Proof.
  unfold forceMenuRefresh.
  destruct (querySelector p MENU_CONTAINER) as [[el|]|]; simpl; try lia.
  destruct (newEvent p "resize"); simpl; try lia.
  destruct (dispatchEvent p "resize"); simpl; lia.
Qed.

Lemma catch_refresh_is_Some (waiter : run) p :
  is_Some (catch_refresh waiter p) ↔ ∃ reason, outcome waiter = Rejected reason.
Proof.
  unfold catch_refresh. destruct (outcome waiter) as [| |reason].
  - split; [by intros [? ?] | by intros [? ?]].
  - split; [by intros [? ?] | by intros [? ?]].
  - split; [by exists reason | by eexists].
Qed.

Lemma catch_refresh_at_most_one (waiter : run) p :
  (length (from_option dispatched [] (catch_refresh waiter p)) ≤ 1)%nat.
Proof.
  unfold catch_refresh. destruct (outcome waiter); simpl; try lia.
  apply forceMenuRefresh_at_most_one.
Qed.

Lemma rejected_iff_all_refuted reg :
  (∃ reason, outcome (ensureMenuComponents reg) = Rejected reason) ↔
  ∀ j, (1 ≤ j ≤ MAX_RETRIES)%nat → refuted reg j = true.
Proof.
  unfold ensureMenuComponents. split.
  - intros [reason Hr].
    by apply (WaiterOutcomes.attemptLoad_rejected_iff reg reason 4 1) in Hr as [_ Hall].
  - intros Hall. eexists.
    by apply (WaiterOutcomes.attemptLoad_rejected_iff reg _ 4 1).
Qed.

(** X6: [forceMenuRefresh] sends one [resize] event to the window exactly
    when the query finds a menu container and neither the query nor the
    making or the dispatch of the event throws; in every other case it
    sends nothing, and an exception of the page ends in the log, not at
    the caller. *)
Theorem forceMenuRefresh_dispatches_iff p :
  (dispatched (forceMenuRefresh p) = ["resize"] ↔
   (∃ menuContainer, querySelector p MENU_CONTAINER = Returns (Some menuContainer)) ∧
   newEvent p "resize" = Returns () ∧
   dispatchEvent p "resize" = Returns ()) ∧
  (dispatched (forceMenuRefresh p) = ["resize"] ∨ dispatched (forceMenuRefresh p) = []) ∧
  (∀ error,
     ErrorRefreshFailed error ∈ refresh_log (forceMenuRefresh p) ↔
     querySelector p MENU_CONTAINER = Raises error ∨
     (∃ menuContainer, querySelector p MENU_CONTAINER = Returns (Some menuContainer)) ∧
     (newEvent p "resize" = Raises error ∨
      newEvent p "resize" = Returns () ∧ dispatchEvent p "resize" = Raises error)).
Proof.
  unfold forceMenuRefresh.
  destruct (querySelector p MENU_CONTAINER) as [[el|]|e0]; simpl.
  - destruct (newEvent p "resize") as [[]|e1]; simpl.
    + destruct (dispatchEvent p "resize") as [[]|e2]; simpl.
      * split_and!; [split; [eauto | done] | by left |].
        intros error. rewrite !elem_of_cons, elem_of_nil. split.
        -- intros [? | [? | []]]; done.
        -- intros [? | [_ [? | [_ ?]]]]; done.
      * split_and!; [split; [done | by intros (_ & _ & ?)] | by right |].
        intros error. rewrite !elem_of_cons, elem_of_nil. split.
        -- intros [? | [[= ->] | []]]; [done|]. right. split; [eauto|]. by right.
        -- intros [? | [_ [? | [_ [= ->]]]]]; try done. right. by left.
    + split_and!; [split; [done | by intros (_ & ? & _)] | by right |].
      intros error. rewrite !elem_of_cons, elem_of_nil. split.
      * intros [? | [[= ->] | []]]; [done|]. right. split; [eauto|]. by left.
      * intros [? | [_ [[= ->] | [? _]]]]; try done. right. by left.
  - split_and!; [split; [done | by intros ([? ?] & _)] | by right |].
    intros error. rewrite elem_of_cons, elem_of_nil. split.
    + intros [? | []]; done.
    + intros [? | [[? ?] _]]; done.
  - split_and!; [split; [done | by intros ([? ?] & _)] | by right |].
    intros error. rewrite !elem_of_cons, elem_of_nil. split.
    + intros [? | [[= ->] | []]]; [done|]. by left.
    + intros [[= ->] | [[? ?] _]]; [|done]. right. by left.
Qed.

(** X7: The watchdog of [monitorMenuLoading] starts its waiter exactly when
    the registry has not called back before the 3000 ms are over; the
    monitor reports completion for any callback, even one that comes after
    the watchdog or brings a falsy component; and the timer never stays armed. *)
Theorem watchdog_fires_iff (ready : response) :
  (watchdog_fired (monitorMenuLoading ready) = true ↔
   match ready with
   | NoCallback => True
   | CallsBack after _ => WATCHDOG_DELAY ≤ after
   end) ∧
  (InfoMonitoringCompleted ∈ monitor_log (monitorMenuLoading ready) ↔
   ready ≠ NoCallback) ∧
  loadingTimeout_armed (monitorMenuLoading ready) = false.
Proof.
  destruct ready as [|after component]; unfold monitorMenuLoading, monitor_schedule.
  - simpl. split_and!; [done | | done].
    rewrite elem_of_cons, elem_of_nil. split; [by intros [?|?] | done].
  - destruct (after <? WATCHDOG_DELAY) eqn:Hlt; simpl.
    + split_and!; [split; [done | lia] | | done].
      split; [done|]. intros _. by left.
    + split_and!; [split; [lia | done] | | done].
      split; [done|]. intros _. right. by left.
Qed.

(** X8: [applyMenuFixes] starts the waiter of the safety net in every case
    and the one of the watchdog only when the menu was not ready within
    3000 ms; a waiter is followed by [forceMenuRefresh] exactly when all
    five of its verifications called back with a falsy component, so not
    when a verification is never answered; at most two [resize] events
    reach the window. *)
Theorem applyMenuFixes_refreshes
    (ready : response) (at_watchdog at_safety_net : registry)
    (page_watchdog page_safety_net : page E) :
  let f := applyMenuFixes ready at_watchdog at_safety_net page_watchdog page_safety_net in
  let slow := match ready with
              | NoCallback => True
              | CallsBack after _ => WATCHDOG_DELAY ≤ after
              end in
  safety_waiter f = ensureMenuComponents at_safety_net ∧
  (watchdog_waiter f = Some (ensureMenuComponents at_watchdog) ↔ slow) ∧
  (watchdog_waiter f = None ↔ ¬ slow) ∧
  (is_Some (safety_refresh f) ↔
   ∀ j, (1 ≤ j ≤ MAX_RETRIES)%nat → refuted at_safety_net j = true) ∧
  (is_Some (watchdog_refresh f) ↔
   slow ∧ ∀ j, (1 ≤ j ≤ MAX_RETRIES)%nat → refuted at_watchdog j = true) ∧
  (length (resize_events f) ≤ 2)%nat.
Proof.
  intros f slow.
  assert (watchdog_fired (monitorMenuLoading ready) = true ↔ slow) as Hslow.
  { destruct ready as [|after component]; unfold monitorMenuLoading, monitor_schedule;
      [done|]. unfold slow. destruct (after <? WATCHDOG_DELAY) eqn:Hlt; simpl;
      split; done || lia. }
  unfold f, applyMenuFixes, resize_events. simpl.
  destruct (watchdog_fired (monitorMenuLoading ready)) eqn:Hfired; simpl.
  - assert slow as Hs by by apply Hslow. split_and!.
    + done.
    + done.
    + split; [done | by intros Hn].
    + rewrite catch_refresh_is_Some. apply rejected_iff_all_refuted.
    + rewrite catch_refresh_is_Some, rejected_iff_all_refuted.
      split; [by intros Hall | by intros [_ Hall]].
    + rewrite length_app.
      pose proof (catch_refresh_at_most_one
                    (ensureMenuComponents at_watchdog) page_watchdog).
      pose proof (catch_refresh_at_most_one
                    (ensureMenuComponents at_safety_net) page_safety_net).
      lia.
  - assert (¬ slow) as Hs by (intros Hs; apply Hslow in Hs; done). split_and!.
    + done.
    + split; [done | by intros Hn].
    + done.
    + rewrite catch_refresh_is_Some. apply rejected_iff_all_refuted.
    + split; [by intros [? ?] | by intros [? _]].
    + pose proof (catch_refresh_at_most_one
                    (ensureMenuComponents at_safety_net) page_safety_net).
      lia.
Qed.

End Page.

End MenuMonitorFacts.

(** ** The optimizer: stacking, the module cache, the flag *)

Module StartupOptimizerFacts.

Import PerformancePatches PerformancePatchesFacts StartupOptimizer JSFacts.

(** X9: Patching [setTimeout] a second time changes nothing: the outer
    wrapper hands the inner one a delay the inner one forwards as it is. *)
Theorem optimizeWebpackLoading_twice {handle : Type}
    (originalSetTimeout : callback → Z → list jsval → handle)
    (cb : callback) (delay : Z) (args : list jsval) :
  optimizeWebpackLoading (optimizeWebpackLoading originalSetTimeout) cb delay args
  = optimizeWebpackLoading originalSetTimeout cb delay args.
Proof.
  unfold optimizeWebpackLoading.
  by destruct ((delay =? 0) && includes WEBPACK_PATTERN (cb_source cb)).
Qed.

Lemma decide_elem_of_cons_ne {A : Type} (k item : string) (items : list string) (a b : A) :
  k ≠ item →
  (if decide (k ∈ item :: items) then a else b) = (if decide (k ∈ items) then a else b).
Proof.
  intros Hne. destruct (decide (k ∈ items)) as [Hin|Hin];
    destruct (decide (k ∈ item :: items)) as [Hin'|Hin']; try done.
  - exfalso. apply Hin'. by right.
  - apply elem_of_cons in Hin' as [?|?]; done.
Qed.

Lemma prewarm_lookup (items : list string) :
  ∀ (cache : gmap string jsval) k,
    foldl (fun cache itemName =>
             match cache !! itemName with
             | Some _ => cache
             | None => <[itemName := JNull]> cache
             end) cache items !! k
    = match cache !! k with
      | Some v => Some v
      | None => if decide (k ∈ items) then Some JNull else None
      end.
Proof.
  induction items as [|item items IH]; intros cache k; simpl.
  - by destruct (cache !! k).
  - rewrite IH. destruct (cache !! item) as [v|] eqn:Hitem.
    + destruct (cache !! k) as [v'|] eqn:Hk; [done|].
      assert (k ≠ item) as Hne by congruence.
      by rewrite decide_elem_of_cons_ne.
    + destruct (decide (k = item)) as [->|Hne].
      * rewrite lookup_insert_eq, Hitem.
        destruct (decide (item ∈ item :: items)) as [_|Hin]; [done|].
        exfalso. apply Hin. by left.
      * rewrite lookup_insert_ne by done. destruct (cache !! k); [done|].
        by rewrite decide_elem_of_cons_ne.
Qed.

(** X10: [optimizeMenuLoading] binds each of the four menu names that the
    cache lacks to [null] and touches nothing else: what was cached stays
    cached, other keys stay absent, and a second call changes nothing. *)
Theorem optimizeMenuLoading_lookup (moduleCache : gmap string jsval) (k : string) :
  optimizeMenuLoading moduleCache !! k
  = match moduleCache !! k with
    | Some v => Some v
    | None => if decide (k ∈ criticalMenuItems) then Some JNull else None
    end ∧
  optimizeMenuLoading (optimizeMenuLoading moduleCache) = optimizeMenuLoading moduleCache.
Proof.
  split; [apply prewarm_lookup|]. apply map_eq. intros i.
  unfold optimizeMenuLoading. rewrite !prewarm_lookup.
  destruct (moduleCache !! i); [done|]. by case_decide.
Qed.

(** X11: Unless the live flag reads truthy (it is off, or absent, or there is
    no [cloud] object to read it from), [disableHeavyFeaturesTemporarily]
    does nothing at all: no write, no timer, no log entry. *)
Theorem disableHeavyFeaturesTemporarily_off (s : state) :
  (∀ v, live_settingsSync s = Some v → truthy v = false) →
  disableHeavyFeaturesTemporarily s = s.
Proof.
  intros Hoff.
  destruct (disableHeavyFeaturesTemporarily_cases s) as [-> | (l & Hl & Ht & _)]; [done|].
  rewrite (Hoff _ (live_settingsSync_cloud_ref s l Hl)) in Ht. done.
Qed.

(** A state whose flag the user has switched off. *)
Lemma disableHeavyFeaturesTemporarily_off_witness :
  disableHeavyFeaturesTemporarily
    (host_run Scenarios.fresh_start (HostSetsSync (JBool false)))
  = host_run Scenarios.fresh_start (HostSetsSync (JBool false)).
Proof.
  apply disableHeavyFeaturesTemporarily_off.
  intros v Hv. vm_compute in Hv. injection Hv as <-. reflexivity.
Defined.

(** X12: Calling [disableHeavyFeaturesTemporarily] again right away changes
    nothing: the flag it has just switched off keeps the second call from
    scheduling a second restore. *)
Theorem disableHeavyFeaturesTemporarily_twice (s : state) :
  disableHeavyFeaturesTemporarily (disableHeavyFeaturesTemporarily s)
  = disableHeavyFeaturesTemporarily s.
Proof.
  destruct (disableHeavyFeaturesTemporarily_cases s) as [Hs | (l & Hl & _ & ->)];
    [by rewrite !Hs|].
  set (s1 := snd (setTimeout ReenableCloudSync 5000 _)).
  assert (cloud_ref (heap s1) l) as Hl1 by (simpl; by apply cloud_ref_write).
  destruct (disableHeavyFeaturesTemporarily_cases s1) as [Hsame | (l' & Hl' & Ht & _)];
    [exact Hsame|].
  rewrite <- (cloud_ref_unique _ _ _ Hl1 Hl') in Ht. simpl in Ht.
  rewrite lookup_insert_eq in Ht. simpl in Ht. by rewrite get_prop_insert_eq in Ht.
Qed.

(** *** No step raises a [TypeError] while [Settings.cloud] is an object *)

Lemma run_action_no_type_error a s l :
  cloud_ref (heap s) l → type_errors (run_action a s) = type_errors s.
Proof.
  intros Hl. destruct a; simpl; [|done].
  by rewrite (assign_settingsSync_cloud_ref _ _ l Hl).
Qed.

Lemma run_timers_no_type_error t rounds l :
  ∀ s, cloud_ref (heap s) l →
    cloud_ref (heap (run_timers rounds t s)) l ∧
    type_errors (run_timers rounds t s) = type_errors s.
Proof.
  induction rounds as [|rounds IH]; intros s Hl; simpl; [done|].
  destruct (next_due (timers s)) as [tm|]; [|done].
  destruct (due tm <=? t); [|done].
  destruct (IH (fire tm s) (fire_cloud_ref tm s l Hl)) as [Hl' ->].
  split; [done|]. unfold fire. by rewrite (run_action_no_type_error _ _ l).
Qed.

Lemma host_run_no_type_error s st l :
  cloud_ref (heap s) l →
  cloud_ref (heap (host_run s st)) l ∧
  type_errors (host_run s st) = type_errors s.
Proof.
  intros Hl. destruct st as [| |v|dt]; simpl.
  - destruct (disableHeavyFeaturesTemporarily_cases s) as [-> | (l' & Hl' & _ & ->)];
      [done|]. simpl. split; [|done].
    rewrite <- (cloud_ref_unique _ _ _ Hl Hl'). by apply cloud_ref_write.
  - unfold optimizePluginInitialization. by destruct (initTimeout s).
  - rewrite (assign_settingsSync_cloud_ref _ _ l Hl). simpl.
    split; [by apply cloud_ref_write | done].
  - unfold advance. simpl. by apply run_timers_no_type_error.
Qed.

(** X13: As long as [Settings.cloud] is an object when the patches start, no
    call of the exported functions, no write of the flag and no timer
    body ever raises a [TypeError], and [Settings.cloud] stays that object. *)
Theorem no_type_error (s : state) (l : loc) (steps : list host_step) :
  cloud_ref (heap s) l →
  cloud_ref (heap (fold_left host_run steps s)) l ∧
  type_errors (fold_left host_run steps s) = type_errors s.
Proof.
  revert s. induction steps as [|st steps IH]; intros s Hl; simpl; [done|].
  destruct (host_run_no_type_error s st l Hl) as [Hl' <-]. by apply IH.
Qed.

Lemma no_type_error_witness :
  cloud_ref (heap (fold_left host_run
                     (CallDisableHeavyFeatures :: Scenarios.busy_startup ++ [TimePasses 6000])
                     Scenarios.fresh_start)) 2%positive ∧
  type_errors (fold_left host_run
                 (CallDisableHeavyFeatures :: Scenarios.busy_startup ++ [TimePasses 6000])
                 Scenarios.fresh_start) = 0%nat.
Proof. apply (no_type_error Scenarios.fresh_start 2%positive). reflexivity. Defined.

End StartupOptimizerFacts.

(** ** The optimizer: the debounce of the plugin initialization *)

Module DebounceFacts.

Import PerformancePatches PerformancePatchesFacts StartupOptimizer.

(** *** Lists of timers *)

Lemma filter_none {A} (P : A → Prop) `{!∀ x, Decision (P x)} (l : list A) :
  (∀ x, x ∈ l → ¬ P x) → filter P l = [].
Proof.
  induction l as [|x l IH]; intros Hnone; [done|].
  rewrite filter_cons. destruct (decide (P x)) as [HP|_].
  - exfalso. apply (Hnone x); [by left | done].
  - apply IH. intros y Hy. apply Hnone. by right.
Qed.

Lemma filter_filter_implied {A} (P Q : A → Prop)
    `{!∀ x, Decision (P x)} `{!∀ x, Decision (Q x)} (l : list A) :
  (∀ x, x ∈ l → P x → Q x) → filter P (filter Q l) = filter P l.
Proof.
  induction l as [|x l IH]; intros Himp; [done|].
  assert (filter P (filter Q l) = filter P l) as IH'.
  { apply IH. intros y Hy. apply Himp. by right. }
  rewrite (filter_cons Q). destruct (decide (Q x)) as [HQ|HQ].
  - rewrite !filter_cons. destruct (decide (P x)); by rewrite IH'.
  - rewrite IH', filter_cons. destruct (decide (P x)) as [HP|_]; [|done].
    exfalso. apply HQ, Himp; [by left | done].
Qed.

Lemma same_id_at_most_one (l : list timer) (i : positive) :
  NoDup (timer_id <$> l) → (∀ x, x ∈ l → timer_id x = i) → (length l ≤ 1)%nat.
Proof.
  destruct l as [|x [|y l]]; simpl; [lia | lia |].
  intros Hnd Hall. exfalso. apply NoDup_cons in Hnd as [Hnotin _].
  apply Hnotin. rewrite (Hall x), <- (Hall y); [by left | by right; left | by left].
Qed.

(** *** The invariant and the steps *)

Lemma host_run_fresh_handles s st :
  fresh_handles s → fresh_handles (host_run s st).
Proof.
  intros Hf. destruct st as [| |v|dt]; simpl.
  - destruct (disableHeavyFeaturesTemporarily_cases s) as [-> | (l & _ & _ & ->)];
      [done|]. by apply fresh_handles_setTimeout.
  - unfold optimizePluginInitialization.
    destruct (initTimeout s) as [id|] eqn:Hinit; simpl.
    + pose proof (fresh_handles_filter (fun tm => timer_id tm ≠ id) s Hf) as Hf'.
      pose proof (fresh_handles_setTimeout PluginInitLog 100 _ Hf') as (Hnd & Hall & _).
      repeat split; simpl in *; [done | done |]. intros ? [= <-]. lia.
    + pose proof (fresh_handles_setTimeout PluginInitLog 100 _ Hf) as (Hnd & Hall & _).
      repeat split; simpl in *; [done | done |]. intros ? [= <-]. lia.
  - unfold assign_settingsSync.
    destruct (read_prop (heap s) (JRef Settings) "cloud") as [cloud|]; [|done].
    by destruct (write_prop (heap s) cloud "settingsSync" v).
  - unfold advance. generalize (length (timers s)). intros rounds.
    assert (∀ s', fresh_handles s' → fresh_handles (run_timers rounds (now s + dt) s'))
      as Hrun.
    { induction rounds as [|rounds IH]; intros s' Hf'; simpl; [done|].
      destruct (next_due (timers s')) as [tm|]; [|done].
      destruct (due tm <=? now s + dt); [|done].
      by apply IH, fire_fresh_handles. }
    exact (Hrun s Hf).
Qed.

Lemma fire_debounced tm s : debounced s → debounced (fire tm s).
Proof.
  intros Hd x Hx Hinit. destruct (fire_frame tm s) as (Htimers & _ & Hi & _).
  rewrite Htimers in Hx. apply list_elem_of_filter in Hx as [_ Hx].
  rewrite Hi. by apply Hd.
Qed.

Lemma run_timers_debounced t rounds :
  ∀ s, debounced s → debounced (run_timers rounds t s).
Proof.
  induction rounds as [|rounds IH]; intros s Hd; simpl; [done|].
  destruct (next_due (timers s)) as [tm|]; [|done].
  destruct (due tm <=? t); [|done]. by apply IH, fire_debounced.
Qed.

(** What a call of [optimizePluginInitialization] leaves pending. *)
Lemma optimizePluginInitialization_pending s :
  debounced s →
  plugin_init_timers (optimizePluginInitialization s)
  = [{| timer_id := next_timer s; due := now s + 100; action := PluginInitLog |}] ∧
  debounced (optimizePluginInitialization s).
Proof.
  intros Hd. unfold optimizePluginInitialization, plugin_init_timers.
  destruct (initTimeout s) as [id|] eqn:Hinit; simpl.
  - split.
    + rewrite filter_app, filter_none; [done|].
      intros x [Hid Hx]%list_elem_of_filter Hx'.
      specialize (Hd x Hx Hx'). congruence.
    + intros x Hx Hx'. apply elem_of_app in Hx as [Hx|Hx].
      * apply list_elem_of_filter in Hx as [Hid Hx]. specialize (Hd x Hx Hx'). congruence.
      * apply list_elem_of_singleton in Hx as ->. done.
  - split.
    + rewrite filter_app, filter_none; [done|].
      intros x Hx Hx'. specialize (Hd x Hx Hx'). congruence.
    + intros x Hx Hx'. apply elem_of_app in Hx as [Hx|Hx].
      * specialize (Hd x Hx Hx'). congruence.
      * apply list_elem_of_singleton in Hx as ->. done.
Qed.

Lemma host_run_debounced s st : debounced s → debounced (host_run s st).
Proof.
  intros Hd. destruct st as [| |v|dt]; simpl.
  - destruct (disableHeavyFeaturesTemporarily_cases s) as [-> | (l & _ & _ & ->)];
      [done|]. intros x Hx Hx'. simpl in *. apply elem_of_app in Hx as [Hx|Hx].
    + by apply Hd.
    + apply list_elem_of_singleton in Hx as ->. done.
  - by apply optimizePluginInitialization_pending.
  - unfold assign_settingsSync.
    destruct (read_prop (heap s) (JRef Settings) "cloud") as [cloud|]; [|done].
    by destruct (write_prop (heap s) cloud "settingsSync" v).
  - unfold advance. intros x Hx Hx'. simpl in *.
    by apply (run_timers_debounced (now s + dt) (length (timers s)) s Hd).
Qed.

Lemma steps_debounced steps :
  ∀ s, fresh_handles s → debounced s →
    fresh_handles (fold_left host_run steps s) ∧ debounced (fold_left host_run steps s).
Proof.
  induction steps as [|st steps IH]; intros s Hf Hd; simpl; [done|].
  apply IH; [by apply host_run_fresh_handles | by apply host_run_debounced].
Qed.

(** X14: Whatever the host has done before, at most one timer of
    [optimizePluginInitialization] is pending, and a call replaces it by
    exactly one, due 100 ms after the call. *)
Theorem plugin_init_timer_unique (s : state) (steps : list host_step) :
  fresh_handles s →
  debounced s →
  let s' := fold_left host_run steps s in
  (length (plugin_init_timers s') ≤ 1)%nat ∧
  plugin_init_timers (optimizePluginInitialization s')
  = [{| timer_id := next_timer s'; due := now s' + 100; action := PluginInitLog |}].
Proof.
  intros Hf Hd s'. destruct (steps_debounced steps s Hf Hd) as [Hf' Hd']. fold s' in Hf', Hd'.
  split; [|by apply optimizePluginInitialization_pending].
  destruct (initTimeout s') as [id|] eqn:Hinit.
  - apply (same_id_at_most_one _ id).
    + destruct Hf' as (Hnd & _). by apply ids_filter_NoDup.
    + intros x [Hx' Hx]%list_elem_of_filter. specialize (Hd' x Hx Hx'). congruence.
  - unfold plugin_init_timers. rewrite filter_none; [simpl; lia|].
    intros x Hx Hx'. specialize (Hd' x Hx Hx'). congruence.
Qed.

Lemma plugin_init_timer_unique_witness :
  let s' := fold_left host_run Scenarios.busy_startup Scenarios.fresh_start in
  (length (plugin_init_timers s') ≤ 1)%nat ∧
  plugin_init_timers (optimizePluginInitialization s')
  = [{| timer_id := next_timer s'; due := now s' + 100; action := PluginInitLog |}].
Proof.
  apply (plugin_init_timer_unique Scenarios.fresh_start Scenarios.busy_startup).
  - repeat split; simpl; [constructor | constructor | discriminate].
  - intros tm Htm. by inversion Htm.
Defined.

(** *** Counting the announcements *)

Lemma plugin_inits_log s s' : log s = log s' → plugin_inits s = plugin_inits s'.
Proof. unfold plugin_inits. by intros ->. Qed.

Lemma fire_plugin_inits tm s :
  plugin_inits (fire tm s)
  = (plugin_inits s + (if is_plugin_init tm then 1 else 0))%nat.
Proof.
  unfold fire, run_action, is_plugin_init. destruct (action tm).
  - unfold assign_settingsSync. simpl.
    destruct (get_prop (default ∅ (heap s !! Settings)) "cloud"); simpl;
      unfold plugin_inits; simpl; rewrite ?filter_app, ?length_app; simpl; lia.
  - unfold plugin_inits. simpl. rewrite filter_app, length_app. simpl. lia.
Qed.

Lemma fire_other_keeps_pending x s :
  fresh_handles s → x ∈ timers s → is_plugin_init x = false →
  plugin_init_timers (fire x s) = plugin_init_timers s.
Proof.
  intros (Hnd & _) Hx Hnot. unfold plugin_init_timers.
  rewrite (proj1 (fire_frame x s)). apply filter_filter_implied.
  intros y Hy Hinit Hid.
  assert (y = x) as -> by by apply (ids_distinct (timers s)). congruence.
Qed.

(** Timers that fire while no initialization timer is due announce nothing. *)
Lemma run_timers_no_init t rounds :
  ∀ s, fresh_handles s →
    (∀ tm, tm ∈ timers s → is_plugin_init tm = true → t < due tm) →
    plugin_inits (run_timers rounds t s) = plugin_inits s ∧
    plugin_init_timers (run_timers rounds t s) = plugin_init_timers s.
Proof.
  induction rounds as [|rounds IH]; intros s Hf Hlate; simpl; [done|].
  destruct (next_due (timers s)) as [x|] eqn:Hnext; [|done].
  destruct (due x <=? t) eqn:Hdue; [|done].
  apply next_due_Some in Hnext as [Hx _].
  assert (is_plugin_init x = false) as Hnot.
  { destruct (is_plugin_init x) eqn:Hinit; [|done]. specialize (Hlate x Hx Hinit). lia. }
  destruct (IH (fire x s)) as [-> ->].
  - by apply fire_fresh_handles.
  - intros tm Htm. rewrite (proj1 (fire_frame x s)) in Htm.
    apply list_elem_of_filter in Htm as [_ Htm]. by apply Hlate.
  - rewrite fire_plugin_inits, Hnot. split; [lia|]. by apply fire_other_keeps_pending.
Qed.

(** Once the clock has reached the instant the one pending
    initialization timer is due, it has announced the initialization once. *)
Lemma run_timers_fires_init t rounds :
  ∀ s tm, fresh_handles s → (length (timers s) ≤ rounds)%nat →
    plugin_init_timers s = [tm] → due tm ≤ t →
    plugin_inits (run_timers rounds t s) = S (plugin_inits s) ∧
    plugin_init_timers (run_timers rounds t s) = [].
Proof.
  induction rounds as [|rounds IH]; intros s tm Hf Hlen Hone Hdue.
  { destruct (timers s) eqn:Hts; [|simpl in Hlen; lia].
    unfold plugin_init_timers in Hone. by rewrite Hts in Hone. }
  assert (∀ y, y ∈ timers s → is_plugin_init y = true → y = tm) as Honly.
  { intros y Hy Hinit.
    assert (y ∈ plugin_init_timers s) as Hin by by apply list_elem_of_filter.
    rewrite Hone in Hin. by apply list_elem_of_singleton in Hin. }
  assert (tm ∈ timers s ∧ is_plugin_init tm = true) as [Htm Htm_init].
  { assert (tm ∈ plugin_init_timers s) as Hin by (rewrite Hone; by left).
    by apply list_elem_of_filter in Hin as [? ?]. }
  simpl. destruct (next_due (timers s)) as [x|] eqn:Hnext.
  2:{ apply next_due_None in Hnext. rewrite Hnext in Htm. by inversion Htm. }
  apply next_due_Some in Hnext as [Hx Hmin].
  pose proof (proj1 (Forall_forall _ _) Hmin tm Htm) as Hle. simpl in Hle.
  destruct (due x <=? t) eqn:Hx_due; [|lia].
  destruct (is_plugin_init x) eqn:Hinit.
  - assert (x = tm) as -> by by apply Honly.
    assert (plugin_init_timers (fire tm s) = []) as Hgone.
    { unfold plugin_init_timers. rewrite (proj1 (fire_frame tm s)).
      apply filter_none. intros y [Hid Hy]%list_elem_of_filter Hy_init.
      apply Hid. by rewrite (Honly y Hy Hy_init). }
    destruct (run_timers_no_init t rounds (fire tm s)) as [-> ->].
    + by apply fire_fresh_handles.
    + intros y Hy Hy_init.
      assert (y ∈ plugin_init_timers (fire tm s)) as Hin by by apply list_elem_of_filter.
      rewrite Hgone in Hin. by inversion Hin.
    + rewrite fire_plugin_inits, Htm_init. split; [lia | done].
  - destruct (IH (fire x s) tm) as [-> ->].
    + by apply fire_fresh_handles.
    + rewrite (proj1 (fire_frame x s)).
      assert (length (filter (fun y => timer_id y ≠ timer_id x) (timers s))
              < length (timers s))%nat; [|lia].
      apply (length_filter_lt _ _ x); [done|]. by intros Hne.
    + rewrite fire_other_keeps_pending; done.
    + done.
    + rewrite fire_plugin_inits, Hinit. split; [lia | done].
Qed.

Lemma call_just_called s :
  fresh_handles s → debounced s →
  just_called (optimizePluginInitialization s) ∧
  plugin_inits (optimizePluginInitialization s) = plugin_inits s.
Proof.
  intros Hf Hd. destruct (optimizePluginInitialization_pending s Hd) as [Hone Hd'].
  split.
  - split; [apply (host_run_fresh_handles s CallOptimizePluginInitialization Hf)|].
    split; [done|]. eexists. split; [exact Hone|].
    unfold optimizePluginInitialization. by destruct (initTimeout s).
  - apply plugin_inits_log. unfold optimizePluginInitialization.
    by destruct (initTimeout s).
Qed.

Lemma wait_keeps_announcements s t :
  just_called s → t < now s + 100 →
  plugin_inits (advance t s) = plugin_inits s ∧
  fresh_handles (advance t s) ∧ debounced (advance t s).
Proof.
  intros (Hf & Hd & tm & Hone & Hdue) Ht.
  destruct (run_timers_no_init t (length (timers s)) s Hf) as [Hcount _].
  { intros y Hy Hinit.
    assert (y ∈ plugin_init_timers s) as Hin by by apply list_elem_of_filter.
    rewrite Hone in Hin. apply list_elem_of_singleton in Hin as ->. lia. }
  split; [by rewrite <- Hcount|]. unfold advance. split.
  - assert (∀ rounds s', fresh_handles s' → fresh_handles (run_timers rounds t s'))
      as Hrun.
    { intros rounds. induction rounds as [|rounds IH]; intros s' Hf'; simpl; [done|].
      destruct (next_due (timers s')) as [x|]; [|done].
      destruct (due x <=? t); [|done]. by apply IH, fire_fresh_handles. }
    exact (Hrun _ s Hf).
  - intros y Hy Hinit. simpl in *.
    by apply (run_timers_debounced t (length (timers s)) s Hd).
Qed.

Lemma gaps_just_called gaps :
  ∀ s, just_called s → Forall (fun gap => 0 ≤ gap < 100) gaps →
    let s' := fold_left host_run
                (flat_map (fun gap => [TimePasses gap; CallOptimizePluginInitialization])
                   gaps) s in
    just_called s' ∧ plugin_inits s' = plugin_inits s.
Proof.
  induction gaps as [|gap gaps IH]; intros s Hs Hgaps; simpl; [done|].
  apply Forall_cons in Hgaps as [Hgap Hgaps].
  destruct (wait_keeps_announcements s (now s + gap) Hs ltac:(lia)) as (Hcount & Hf & Hd).
  destruct (call_just_called _ Hf Hd) as [Hs' Hcount'].
  destruct (IH _ Hs' Hgaps) as [Hs'' Hcount''].
  split; [done|]. simpl in Hcount''. rewrite Hcount''. congruence.
Qed.

(** X15: Calls of [optimizePluginInitialization] that follow one another by
    less than 100 ms are coalesced: nothing is announced during the burst
    or in the 100 ms after its last call, and exactly one announcement has
    been made when those 100 ms are over, with no timer left behind. *)
Theorem plugin_init_burst_coalesces (s : state) (gaps : list Z) (t : Z) :
  fresh_handles s →
  debounced s →
  Forall (fun gap => 0 ≤ gap < 100) gaps →
  let s' := fold_left host_run (burst gaps) s in
  t < now s' + 100 →
  plugin_inits s' = plugin_inits s ∧
  plugin_inits (advance t s') = plugin_inits s ∧
  plugin_inits (advance (now s' + 100) s') = S (plugin_inits s) ∧
  plugin_init_timers (advance (now s' + 100) s') = [].
Proof.
  intros Hf Hd Hgaps s' Ht. unfold s', burst in *. simpl in *.
  destruct (call_just_called s Hf Hd) as [Hs1 Hcount1].
  destruct (gaps_just_called gaps _ Hs1 Hgaps) as [Hs' Hcount']. simpl in Hs', Hcount'.
  set (last := fold_left host_run _ _) in *.
  split; [congruence|]. split.
  - destruct (wait_keeps_announcements last t Hs' Ht) as [-> _]. congruence.
  - destruct Hs' as (Hf' & _ & tm & Hone & Hdue).
    destruct (run_timers_fires_init (now last + 100) (length (timers last)) last tm)
      as [Hcount Hgone]; [done | done | done | lia |].
    unfold advance. split.
    + rewrite <- Hcount1, <- Hcount', <- Hcount. by apply plugin_inits_log.
    + done.
Qed.

Lemma plugin_init_burst_coalesces_witness :
  let s' := fold_left host_run (burst [30; 99; 0]) Scenarios.fresh_start in
  plugin_inits s' = plugin_inits Scenarios.fresh_start ∧
  plugin_inits (advance (now s' + 99) s') = plugin_inits Scenarios.fresh_start ∧
  plugin_inits (advance (now s' + 100) s') = S (plugin_inits Scenarios.fresh_start) ∧
  plugin_init_timers (advance (now s' + 100) s') = [].
Proof.
  apply (plugin_init_burst_coalesces Scenarios.fresh_start [30; 99; 0]).
  - repeat split; simpl; [constructor | constructor | discriminate].
  - intros tm Htm. by inversion Htm.
  - repeat constructor; lia.
  - vm_compute. reflexivity.
Defined.

End DebounceFacts.

(** ** The guard: success, logging, and repeated starts *)

Module GuardFacts.

Import VoiceCrashPreventer VoiceCrashPreventerFacts PluginLifecycle.

Section Guard.

Context {W E V This : Type}.
Variable originalSetSinkId : This → string → original W E V.
Variable originalGetDisplayMedia : This → option obj → original W E V.
Variable originalGetUserMedia : This → option obj → original W E V.

Implicit Types (m : machine W E This) (this : This) (error : E).

Ltac unfold_guard :=
  unfold setSinkId, getDisplayMedia, getUserMedia,
    try_catch, bind, call, ret, throw, emit, read_store; simpl.

(** X16: When the original returns, each wrapper returns that value and
    leaves nothing behind but the record of the one call, whatever the
    settings are. *)
Theorem guards_transparent_on_success
    m this (sinkId : string) (constraints : option obj) (v : V) (w : W) :
  (originalSetSinkId this sinkId (world m) = (Normal v, w) →
   setSinkId originalSetSinkId this sinkId m
   = (Normal (FromOriginal v),
      {| world := w; store := store m;
         trace := trace m ++ [Called SetSinkId this (SinkArg sinkId)] |})) ∧
  (originalGetDisplayMedia this constraints (world m) = (Normal v, w) →
   getDisplayMedia originalGetDisplayMedia this constraints m
   = (Normal (FromOriginal v),
      {| world := w; store := store m;
         trace := trace m ++ [Called GetDisplayMedia this (ConstraintsArg constraints)] |})) ∧
  (originalGetUserMedia this constraints (world m) = (Normal v, w) →
   getUserMedia originalGetUserMedia this constraints m
   = (Normal (FromOriginal v),
      {| world := w; store := store m;
         trace := trace m ++ [Called GetUserMedia this (ConstraintsArg constraints)] |})).
Proof.
  split_and!; unfold_guard.
  - destruct (originalSetSinkId this sinkId (world m)) as [[v'|e] w'];
      intros [= -> ->]; reflexivity.
  - destruct (originalGetDisplayMedia this constraints (world m)) as [[v'|e] w'];
      intros [= -> ->]; reflexivity.
  - destruct (originalGetUserMedia this constraints (world m)) as [[v'|e] w'];
      intros [= -> ->]; reflexivity.
Qed.

(** X17: With [preventCrash] on, an exception of the original
    [getDisplayMedia] becomes a promise resolved with a new, empty
    [MediaStream]: one call, one warning, and no [console.log] entry even
    with [logEvents] on. *)
Theorem getDisplayMedia_resolves_on_throw m this (constraints : option obj) error (w : W) :
  preventCrash (store m) = true →
  originalGetDisplayMedia this constraints (world m) = (Throw error, w) →
  getDisplayMedia originalGetDisplayMedia this constraints m
  = (Normal (ResolvedPromise EmptyMediaStream),
     {| world := w; store := store m;
        trace := trace m ++ [Called GetDisplayMedia this (ConstraintsArg constraints);
                             ConsoleWarn GetDisplayMedia error] |}).
Proof.
  intros Hpc. unfold_guard.
  destruct (originalGetDisplayMedia this constraints (world m)) as [[v'|e] w'];
    intros [= -> ->]. simpl. rewrite Hpc. simpl. by rewrite <- app_assoc.
Qed.

Lemma without_logs_app (tr tr' : list (event E This)) :
  without_logs (tr ++ tr') = without_logs tr ++ without_logs tr'.
Proof. apply filter_app. Qed.

(** X18: [logEvents] decides about [console.log] entries and about nothing
    else: how a wrapper ends, what it does to the browser and what else it
    records are the same with the flag on and off. *)
Theorem logEvents_only_logs
    m this (sinkId : string) (constraints : option obj) (b : bool) :
  let same (r r' : completion E (value V) * machine W E This) :=
    fst r = fst r' ∧ world (snd r) = world (snd r') ∧
    without_logs (trace (snd r)) = without_logs (trace (snd r')) in
  same (setSinkId originalSetSinkId this sinkId (with_logEvents b m))
       (setSinkId originalSetSinkId this sinkId m) ∧
  same (getDisplayMedia originalGetDisplayMedia this constraints (with_logEvents b m))
       (getDisplayMedia originalGetDisplayMedia this constraints m) ∧
  same (getUserMedia originalGetUserMedia this constraints (with_logEvents b m))
       (getUserMedia originalGetUserMedia this constraints m).
Proof.
  intros same. unfold same. split; [|split]; unfold_guard.
  - destruct (originalSetSinkId this sinkId (world m)) as [[v|e] w]; simpl; [done|].
    destruct (preventCrash (store m)); simpl; [|done].
    destruct b, (logEvents (store m)); simpl; split_and!; try done;
      rewrite !without_logs_app; simpl; by rewrite ?app_nil_r.
  - destruct (originalGetDisplayMedia this constraints (world m)) as [[v|e] w];
      simpl; [done|].
    destruct (preventCrash (store m)); simpl; done.
  - destruct (originalGetUserMedia this constraints (world m)) as [[v|e] w];
      simpl; [done|].
    destruct (preventCrash (store m) && truthy (video_of constraints)); simpl; [|done].
    destruct b, (logEvents (store m)); simpl;
      destruct (originalGetUserMedia this (Some (audio_only constraints)) w)
        as [[v|e'] w']; simpl; split_and!; try done;
      rewrite !without_logs_app; simpl; by rewrite ?app_nil_r.
Qed.

End Guard.

Import Scenarios.

Lemma guards_transparent_on_success_witness :
  getUserMedia broken_camera () (Some voice_call) guarded
  = (Normal (FromOriginal 0%nat),
     {| world := 1%nat; store := store guarded;
        trace := trace guarded
                 ++ [Called GetUserMedia () (ConstraintsArg (Some voice_call))] |}).
Proof.
  apply (guards_transparent_on_success broken_sink broken_capture broken_camera
           guarded () "speaker" (Some voice_call) 0%nat 1%nat).
  reflexivity.
Defined.

Lemma getDisplayMedia_resolves_on_throw_witness :
  getDisplayMedia broken_capture () None
    {| world := 0%nat;
       store := {| preventCrash := true; logEvents := true |};
       trace := [] |}
  = (Normal (ResolvedPromise EmptyMediaStream),
     {| world := 1%nat;
        store := {| preventCrash := true; logEvents := true |};
        trace := [Called GetDisplayMedia () (ConstraintsArg None);
                  ConsoleWarn GetDisplayMedia "InvalidStateError"] |}).
Proof.
  apply (getDisplayMedia_resolves_on_throw broken_capture
           {| world := 0%nat;
              store := {| preventCrash := true; logEvents := true |};
              trace := [] |} () None "InvalidStateError" 1%nat); reflexivity.
Defined.

End GuardFacts.

(** ** [start] and [stop]: what repeated starts install *)

Module PluginLifecycleFacts.

Import VoiceCrashPreventer VoiceCrashPreventerFacts PluginLifecycle.

(** [stop] takes nothing back: each [start] adds a layer to every slot
    that has a function, and the layers stay. *)
Lemma toggles_install (ts : list toggle) :
  ∀ b, fold_left toggle_run ts b
       = {| mediaElement_setSinkId :=
              Nat.iter (starts ts) Guarded <$> mediaElement_setSinkId b;
            mediaDevices_getDisplayMedia :=
              Nat.iter (starts ts) Guarded (mediaDevices_getDisplayMedia b);
            mediaDevices_getUserMedia :=
              Nat.iter (starts ts) Guarded (mediaDevices_getUserMedia b) |}.
Proof.
  induction ts as [|[|] ts IH]; intros [sink display user]; simpl.
  - by destruct sink.
  - rewrite IH. unfold start, patchScreenShare, patchVoiceModule. simpl.
    destruct sink as [f|]; simpl; by rewrite <- ?Nat.iter_succ_r.
  - by rewrite IH.
Qed.

Section Run.

Context {W E V This : Type}.
Variable originalSetSinkId : This → string → original W E V.
Variable originalGetDisplayMedia : This → option obj → original W E V.
Variable originalGetUserMedia : This → option obj → original W E V.

Implicit Types (m : machine W E This) (this : This) (f : installed).

(** *** One layer, spelled out *)

Lemma call_setSinkId_guarded f this (sinkId : string) m :
  call_setSinkId originalSetSinkId (Guarded f) this sinkId m
  = match call_setSinkId originalSetSinkId f this sinkId m with
    | (Normal a, m') => (Normal a, m')
    | (Throw error, m') =>
        if preventCrash (store m') then
          (Normal (ResolvedPromise NoValue),
           {| world := world m'; store := store m';
              trace := trace m' ++ ConsoleWarn SetSinkId error
                         :: (if logEvents (store m') then [ConsoleLogElement this] else []) |})
        else (Throw error, m')
    end.
Proof.
  simpl. unfold try_catch.
  destruct (call_setSinkId originalSetSinkId f this sinkId m) as [[a|error] m']; [done|].
  unfold bind, read_store, emit, ret, throw.
  destruct (preventCrash (store m')); [|done].
  destruct (logEvents (store m')); simpl; by rewrite <- ?app_assoc.
Qed.

Lemma call_getDisplayMedia_guarded f this (constraints : option obj) m :
  call_getDisplayMedia originalGetDisplayMedia (Guarded f) this constraints m
  = match call_getDisplayMedia originalGetDisplayMedia f this constraints m with
    | (Normal a, m') => (Normal a, m')
    | (Throw error, m') =>
        if preventCrash (store m') then
          (Normal (ResolvedPromise EmptyMediaStream),
           {| world := world m'; store := store m';
              trace := trace m' ++ [ConsoleWarn GetDisplayMedia error] |})
        else (Throw error, m')
    end.
Proof.
  simpl. unfold try_catch.
  destruct (call_getDisplayMedia originalGetDisplayMedia f this constraints m)
    as [[a|error] m']; [done|].
  unfold bind, read_store, emit, ret, throw.
  by destruct (preventCrash (store m')).
Qed.

Lemma call_getUserMedia_guarded f this (constraints : option obj) m :
  call_getUserMedia originalGetUserMedia (Guarded f) this constraints m
  = match call_getUserMedia originalGetUserMedia f this constraints m with
    | (Normal a, m') => (Normal a, m')
    | (Throw error, m') =>
        if preventCrash (store m') && truthy (video_of constraints) then
          call_getUserMedia originalGetUserMedia f this (Some (audio_only constraints))
            {| world := world m'; store := store m';
               trace := trace m' ++ ConsoleWarn GetUserMedia error
                          :: (if logEvents (store m')
                              then [ConsoleLogConstraints constraints] else []) |}
        else (Throw error, m')
    end.
Proof.
  simpl. unfold try_catch.
  destruct (call_getUserMedia originalGetUserMedia f this constraints m)
    as [[a|error] m']; [done|].
  unfold bind, read_store, emit, ret, throw.
  destruct (preventCrash (store m') && truthy (video_of constraints)); [|done].
  destruct (logEvents (store m')); simpl; by rewrite <- ?app_assoc.
Qed.

(** No wrapper touches the settings. *)
Lemma call_setSinkId_store f this (sinkId : string) :
  ∀ m, store (snd (call_setSinkId originalSetSinkId f this sinkId m)) = store m.
Proof.
  induction f as [|f IH]; intros m.
  - simpl. unfold bind, call, ret.
    by destruct (originalSetSinkId this sinkId (world m)) as [[v|e] w].
  - rewrite call_setSinkId_guarded. specialize (IH m).
    destruct (call_setSinkId originalSetSinkId f this sinkId m) as [[a|e] m'];
      simpl in *; [done|]. by destruct (preventCrash (store m')).
Qed.

Lemma call_getDisplayMedia_store f this (constraints : option obj) :
  ∀ m, store (snd (call_getDisplayMedia originalGetDisplayMedia f this constraints m))
       = store m.
Proof.
  induction f as [|f IH]; intros m.
  - simpl. unfold bind, call, ret.
    by destruct (originalGetDisplayMedia this constraints (world m)) as [[v|e] w].
  - rewrite call_getDisplayMedia_guarded. specialize (IH m).
    destruct (call_getDisplayMedia originalGetDisplayMedia f this constraints m)
      as [[a|e] m']; simpl in *; [done|]. by destruct (preventCrash (store m')).
Qed.

(** A second layer around [setSinkId] or [getDisplayMedia] is never
    reached by an exception it would handle differently. *)
Lemma call_setSinkId_absorbs f this (sinkId : string) m :
  call_setSinkId originalSetSinkId (Guarded (Guarded f)) this sinkId m
  = call_setSinkId originalSetSinkId (Guarded f) this sinkId m.
Proof.
  rewrite (call_setSinkId_guarded (Guarded f)), call_setSinkId_guarded.
  destruct (call_setSinkId originalSetSinkId f this sinkId m) as [[a|e] m']; [done|].
  destruct (preventCrash (store m')) eqn:Hpc; [done|]. by rewrite Hpc.
Qed.

Lemma call_getDisplayMedia_absorbs f this (constraints : option obj) m :
  call_getDisplayMedia originalGetDisplayMedia (Guarded (Guarded f)) this constraints m
  = call_getDisplayMedia originalGetDisplayMedia (Guarded f) this constraints m.
Proof.
  rewrite (call_getDisplayMedia_guarded (Guarded f)), call_getDisplayMedia_guarded.
  destruct (call_getDisplayMedia originalGetDisplayMedia f this constraints m)
    as [[a|e] m']; [done|].
  destruct (preventCrash (store m')) eqn:Hpc; [done|]. by rewrite Hpc.
Qed.

Lemma call_setSinkId_layers n this (sinkId : string) m :
  call_setSinkId originalSetSinkId (guards (S n)) this sinkId m
  = setSinkId originalSetSinkId this sinkId m.
Proof.
  induction n as [|n IH]; [done|].
  change (guards (S (S n))) with (Guarded (Guarded (guards n))).
  rewrite call_setSinkId_absorbs. exact IH.
Qed.

Lemma call_getDisplayMedia_layers n this (constraints : option obj) m :
  call_getDisplayMedia originalGetDisplayMedia (guards (S n)) this constraints m
  = getDisplayMedia originalGetDisplayMedia this constraints m.
Proof.
  induction n as [|n IH]; [done|].
  change (guards (S (S n))) with (Guarded (Guarded (guards n))).
  rewrite call_getDisplayMedia_absorbs. exact IH.
Qed.

(** X19: However often the plugin is started and stopped, once it has been
    started the slots of [setSinkId] and [getDisplayMedia] behave exactly
    like a single wrapper around the browser's function: [stop] removes
    nothing and further starts add nothing. A browser without [setSinkId]
    gets none. *)
Theorem restarts_keep_single_guard
    (ts : list toggle) (has_setSinkId : bool)
    this (sinkId : string) (constraints : option obj) m :
  (1 ≤ starts ts)%nat →
  let api := fold_left toggle_run ts (native_api has_setSinkId) in
  match mediaElement_setSinkId api with
  | Some f =>
      has_setSinkId = true ∧
      call_setSinkId originalSetSinkId f this sinkId m
      = setSinkId originalSetSinkId this sinkId m
  | None => has_setSinkId = false
  end ∧
  call_getDisplayMedia originalGetDisplayMedia
    (mediaDevices_getDisplayMedia api) this constraints m
  = getDisplayMedia originalGetDisplayMedia this constraints m.
Proof.
  intros Hstarts api. unfold api. rewrite toggles_install. simpl.
  destruct (starts ts) as [|n]; [lia|]. split.
  - destruct has_setSinkId; simpl; [|done]. split; [done|].
    apply (call_setSinkId_layers n).
  - apply (call_getDisplayMedia_layers n).
Qed.

(** *** Layers around [getUserMedia] *)

Lemma warnings_app (tr tr' : list (event E This)) :
  warnings (tr ++ tr') = (warnings tr + warnings tr')%nat.
Proof. unfold warnings. by rewrite filter_app, length_app. Qed.

Lemma video_of_audio_only (constraints : option obj) :
  truthy (video_of (Some (audio_only constraints))) = false.
Proof. unfold video_of, audio_only, get_prop. by rewrite lookup_singleton_ne. Qed.

(** A request without video that the browser refuses passes every
    layer as the exception it is, after one call. *)
Lemma call_getUserMedia_refused_audio this (constraints : option obj) :
  (∀ c w, ∃ e w', originalGetUserMedia this c w = (Throw e, w')) →
  truthy (video_of constraints) = false →
  ∀ f m, ∃ e m',
    call_getUserMedia originalGetUserMedia f this constraints m = (Throw e, m') ∧
    store m' = store m ∧
    calls_of GetUserMedia (trace m')
    = calls_of GetUserMedia (trace m) ++ [ConstraintsArg constraints] ∧
    warnings (trace m') = warnings (trace m).
Proof.
  intros Hrefuse Hvideo f. induction f as [|f IH]; intros m.
  - destruct (Hrefuse constraints (world m)) as (e & w' & Hthrow).
    exists e, {| world := w'; store := store m;
                 trace := trace m ++ [Called GetUserMedia this (ConstraintsArg constraints)] |}.
    split_and!; [| done | |].
    + simpl. unfold bind, call, ret. by rewrite Hthrow.
    + cbn [trace]. by rewrite calls_of_app.
    + cbn [trace]. rewrite warnings_app. unfold warnings at 2. simpl. lia.
  - destruct (IH m) as (e & m' & Hcall & Hstore & Hcalls & Hwarn).
    exists e, m'. rewrite call_getUserMedia_guarded, Hcall, Hvideo, andb_false_r. done.
Qed.

(** A request for video that the browser refuses, whatever the
    constraints, is retried without video once by every layer. *)
Lemma call_getUserMedia_refused_video this (constraints : option obj) :
  (∀ c w, ∃ e w', originalGetUserMedia this c w = (Throw e, w')) →
  truthy (video_of constraints) = true →
  ∀ n m, preventCrash (store m) = true →
    ∃ e m',
      call_getUserMedia originalGetUserMedia (guards n) this constraints m = (Throw e, m') ∧
      store m' = store m ∧
      calls_of GetUserMedia (trace m')
      = calls_of GetUserMedia (trace m)
        ++ ConstraintsArg constraints
           :: replicate n (ConstraintsArg (Some (audio_only constraints))) ∧
      warnings (trace m') = (warnings (trace m) + n)%nat.
Proof.
  intros Hrefuse Hvideo n. induction n as [|n IH]; intros m Hpc.
  - destruct (Hrefuse constraints (world m)) as (e & w' & Hthrow).
    exists e, {| world := w'; store := store m;
                 trace := trace m ++ [Called GetUserMedia this (ConstraintsArg constraints)] |}.
    split_and!; [| done | |].
    + simpl. unfold bind, call, ret. by rewrite Hthrow.
    + cbn [trace]. by rewrite calls_of_app.
    + cbn [trace]. rewrite warnings_app. unfold warnings at 2. simpl. lia.
  - destruct (IH m Hpc) as (e & m1 & Hcall & Hstore & Hcalls & Hwarn).
    change (guards (S n)) with (Guarded (guards n)).
    rewrite call_getUserMedia_guarded, Hcall, Hstore, Hpc, Hvideo. simpl.
    set (m2 := {| world := world m1; store := store m; trace := _ |}).
    destruct (call_getUserMedia_refused_audio this (Some (audio_only constraints))
                Hrefuse (video_of_audio_only constraints) (guards n) m2)
      as (e' & m3 & Hretry & Hstore3 & Hcalls3 & Hwarn3).
    exists e', m3. split_and!; [done | done | |].
    + rewrite Hcalls3. unfold m2. simpl. rewrite calls_of_app, Hcalls.
      destruct (logEvents (store m)); simpl;
        rewrite ?app_nil_r, <- !app_assoc; simpl;
        by rewrite <- replicate_cons_app.
    + rewrite Hwarn3. unfold m2. simpl. rewrite warnings_app, Hwarn.
      destruct (logEvents (store m)); unfold warnings; simpl; lia.
Qed.

(** X20: Every start of the plugin adds a layer around [getUserMedia] that
    [stop] does not take away, and each layer retries on its own: with
    [preventCrash] on, a request for video to a browser that refuses every
    request still ends in an exception, after one call with the caller's
    constraints and one audio-only call per start, each start adding one
    warning. *)
Theorem restarts_multiply_retries
    (ts : list toggle) (has_setSinkId : bool) this (constraints : option obj) m :
  (∀ c w, ∃ e w', originalGetUserMedia this c w = (Throw e, w')) →
  preventCrash (store m) = true →
  truthy (video_of constraints) = true →
  let api := fold_left toggle_run ts (native_api has_setSinkId) in
  ∃ e m',
    call_getUserMedia originalGetUserMedia
      (mediaDevices_getUserMedia api) this constraints m = (Throw e, m') ∧
    calls_of GetUserMedia (trace m')
    = calls_of GetUserMedia (trace m)
      ++ ConstraintsArg constraints
         :: replicate (starts ts) (ConstraintsArg (Some (audio_only constraints))) ∧
    warnings (trace m') = (warnings (trace m) + starts ts)%nat.
Proof.
  intros Hrefuse Hpc Hvideo api. unfold api. rewrite toggles_install. simpl.
  destruct (call_getUserMedia_refused_video this constraints Hrefuse Hvideo
              (starts ts) m Hpc) as (e & m' & Hcall & _ & Hcalls & Hwarn).
  by exists e, m'.
Qed.

End Run.

Import Scenarios.

Lemma restarts_keep_single_guard_witness :
  match mediaElement_setSinkId
          (fold_left toggle_run [Start; Stop; Start] (native_api true)) with
  | Some f =>
      true = true ∧
      call_setSinkId broken_sink f () "speaker" guarded
      = setSinkId broken_sink () "speaker" guarded
  | None => true = false
  end ∧
  call_getDisplayMedia broken_capture
    (mediaDevices_getDisplayMedia
       (fold_left toggle_run [Start; Stop; Start] (native_api true))) () None guarded
  = getDisplayMedia broken_capture () None guarded.
Proof.
  apply (restarts_keep_single_guard broken_sink broken_capture
           [Start; Stop; Start] true () "speaker" None guarded).
  simpl. lia.
Defined.

Lemma restarts_multiply_retries_witness :
  ∃ e m',
    call_getUserMedia dead_microphone
      (mediaDevices_getUserMedia
         (fold_left toggle_run [Start; Stop; Start] (native_api true)))
      () (Some camera_call) guarded = (Throw e, m') ∧
    calls_of GetUserMedia (trace m')
    = calls_of GetUserMedia (trace guarded)
      ++ ConstraintsArg (Some camera_call)
         :: replicate (starts [Start; Stop; Start])
              (ConstraintsArg (Some (audio_only (Some camera_call)))) ∧
    warnings (trace m') = (warnings (trace guarded) + starts [Start; Stop; Start])%nat.
Proof.
  apply (restarts_multiply_retries dead_microphone
           [Start; Stop; Start] true () (Some camera_call) guarded).
  - intros c w. by eexists _, _.
  - reflexivity.
  - reflexivity.
Defined.

End PluginLifecycleFacts.
